(** * drawtogether-server: the synchronisation core, embedded and verified

    The development follows the two source files of the repository:

    - [socket.ts]: the class [EventClass] (named-event registry with [on],
      [once] and [emitEvent]) and the class [Socket] built on it, which
      frames [{command, data}] envelopes as JSON text over a WebSocket;
    - the server entry point: the global [sockets] array, [broadcast],
      [saveCanvas] and [handleData].

    JavaScript values are modelled by the inductive type [value]; the two
    runtime functions the source calls, [JSON.stringify] and [JSON.parse],
    are modelled executably on lists of UTF-16 code units. *)

From Stdlib Require Import Ascii String DecimalN.
From stdpp Require Import base list strings gmap.

Set Warnings "-register-all".

Local Open Scope N_scope.

(** ** Text: sequences of UTF-16 code units *)

Abbreviation char := N (only parsing).
Abbreviation text := (list N) (only parsing).

(** A source literal, written as a Rocq string of one-byte characters. *)
Definition lit (s : string) : text :=
  N_of_ascii <$> list_ascii_of_string s.

Definition dquote : char := 34.
Definition backslash : char := 92.

(** ** JavaScript values *)

Inductive digit := d0 | d1 | d2 | d3 | d4 | d5 | d6 | d7 | d8 | d9.

(** A JavaScript number. A finite number is held by the decimal digits
    [ds] and the exponent [n] that the language's own [Number::toString]
    is defined on: the value is [0.ds * 10^n] with [ds] the shortest digit
    string denoting the number (no leading and no trailing zero); zero is
    the empty digit string. The rounding of an arbitrary decimal to a
    binary64 is outside the model: decimals are kept exactly. *)
Inductive number :=
| NaN
| Infinity (neg : bool)
| Finite (neg : bool) (ds : list digit) (n : Z).

Inductive value :=
| VUndefined
| VNull
| VBool (b : bool)
| VNum (x : number)
| VStr (s : text)
| VArr (l : list value)
| VObj (kvs : list (text * value)).

#[global] Instance digit_eq_dec : EqDecision digit.
Proof. solve_decision. Defined.

#[global] Instance number_eq_dec : EqDecision number.
Proof. solve_decision. Defined.

Definition digit_val (d : digit) : N :=
  match d with
  | d0 => 0 | d1 => 1 | d2 => 2 | d3 => 3 | d4 => 4
  | d5 => 5 | d6 => 6 | d7 => 7 | d8 => 8 | d9 => 9
  end.

Definition digit_char (d : digit) : char := 48 + digit_val d.

Definition char_digit (c : char) : option digit :=
  if c =? 48 then Some d0 else if c =? 49 then Some d1
  else if c =? 50 then Some d2 else if c =? 51 then Some d3
  else if c =? 52 then Some d4 else if c =? 53 then Some d5
  else if c =? 54 then Some d6 else if c =? 55 then Some d7
  else if c =? 56 then Some d8 else if c =? 57 then Some d9
  else None.

Definition digits_text (ds : list digit) : text := digit_char <$> ds.

Definition zeros (n : nat) : text := replicate n 48.

Fixpoint uint_digits (u : Decimal.uint) : list digit :=
  match u with
  | Decimal.Nil => []
  | Decimal.D0 u => d0 :: uint_digits u
  | Decimal.D1 u => d1 :: uint_digits u
  | Decimal.D2 u => d2 :: uint_digits u
  | Decimal.D3 u => d3 :: uint_digits u
  | Decimal.D4 u => d4 :: uint_digits u
  | Decimal.D5 u => d5 :: uint_digits u
  | Decimal.D6 u => d6 :: uint_digits u
  | Decimal.D7 u => d7 :: uint_digits u
  | Decimal.D8 u => d8 :: uint_digits u
  | Decimal.D9 u => d9 :: uint_digits u
  end.

Fixpoint digits_uint (ds : list digit) : Decimal.uint :=
  match ds with
  | [] => Decimal.Nil
  | d :: ds =>
    let u := digits_uint ds in
    match d with
    | d0 => Decimal.D0 u | d1 => Decimal.D1 u | d2 => Decimal.D2 u
    | d3 => Decimal.D3 u | d4 => Decimal.D4 u | d5 => Decimal.D5 u
    | d6 => Decimal.D6 u | d7 => Decimal.D7 u | d8 => Decimal.D8 u
    | d9 => Decimal.D9 u
    end
  end.

(** The decimal digits of a natural number, most significant first. *)
Definition N_digits (n : N) : list digit := uint_digits (N.to_uint n).
Definition digits_N (ds : list digit) : N := N.of_uint (digits_uint ds).

Fixpoint strip_leading (ds : list digit) : nat * list digit :=
  match ds with
  | d0 :: ds' => let '(a, r) := strip_leading ds' in (S a, r)
  | _ => (0%nat, ds)
  end.

Definition strip_trailing (ds : list digit) : list digit :=
  reverse (strip_leading (reverse ds)).2.

(** The number denoted by the digit string [ds] read as [0.ds * 10^p]. *)
Definition mk_number (neg : bool) (ds : list digit) (p : Z) : number :=
  let '(a, r) := strip_leading ds in
  match strip_trailing r with
  | [] => Finite neg [] 0
  | ds' => Finite neg ds' (p - Z.of_nat a)
  end.

(** An integer as a JavaScript number. *)
Definition num_of_Z (z : Z) : number :=
  let ds := N_digits (Z.abs_N z) in
  mk_number (z <? 0)%Z ds (Z.of_nat (length ds)).

Module JSON.

(** *** [JSON.stringify] *)

(** [Number::toString] on a positive finite number with digits [ds] and
    exponent [n]: plain digits, a decimal point, a leading [0.], or the
    exponent form. *)
Definition positive_toString (ds : list digit) (n : Z) : text :=
  let k := Z.of_nat (length ds) in
  if ((k <=? n) && (n <=? 21))%Z then
    digits_text ds ++ zeros (Z.to_nat (n - k))
  else if ((0 <? n) && (n <=? 21))%Z then
    digits_text (take (Z.to_nat n) ds) ++ [46] ++
    digits_text (drop (Z.to_nat n) ds)
  else if ((-6 <? n) && (n <=? 0))%Z then
    [48; 46] ++ zeros (Z.to_nat (- n)) ++ digits_text ds
  else
    let e := (n - 1)%Z in
    let etxt := [101; if (e <? 0)%Z then 45 else 43] ++
                digits_text (N_digits (Z.abs_N e)) in
    match ds with
    | [] => []
    | [d] => digit_char d :: etxt
    | d :: rest => digit_char d :: 46 :: digits_text rest ++ etxt
    end.

(** A number as [JSON.stringify] writes it: [null] unless finite. *)
Definition ser_number (x : number) : text :=
  match x with
  | NaN | Infinity _ => lit "null"
  | Finite _ [] _ => lit "0"
  | Finite neg ds n =>
    (if neg then [45] else []) ++ positive_toString ds n
  end.

Definition hex_char (h : N) : char :=
  if h <? 10 then 48 + h else 87 + h.

(** [QuoteJSONString] on one code unit (a surrogate is written as it is,
    also an unpaired one, which the language writes as an escape). *)
Definition escape (c : char) : text :=
  if c =? 8 then [backslash; 98]
  else if c =? 9 then [backslash; 116]
  else if c =? 10 then [backslash; 110]
  else if c =? 12 then [backslash; 102]
  else if c =? 13 then [backslash; 114]
  else if c =? dquote then [backslash; dquote]
  else if c =? backslash then [backslash; backslash]
  else if c <? 32 then
    [backslash; 117; 48; 48; hex_char (c / 16); hex_char (c mod 16)]
  else [c].

Definition quote (s : text) : text :=
  dquote :: concat (escape <$> s) ++ [dquote].

Fixpoint join_commas (ts : list text) : text :=
  match ts with
  | [] => []
  | [t] => t
  | t :: ts' => t ++ 44 :: join_commas ts'
  end.

(** [SerializeJSONProperty]: [None] stands for the result [undefined]. An
    [undefined] array element is written [null]; an object member whose
    value is [undefined] is left out. Members are written in the order of
    the list (the language puts integer-like keys first). *)
Fixpoint ser (v : value) : option text :=
  match v with
  | VUndefined => None
  | VNull => Some (lit "null")
  | VBool b => Some (if b then lit "true" else lit "false")
  | VNum x => Some (ser_number x)
  | VStr s => Some (quote s)
  | VArr l =>
    Some (91 :: join_commas
                  ((fun e => default (lit "null") (ser e)) <$> l) ++ [93])
  | VObj kvs =>
    Some (123 :: join_commas
                   (omap (fun kv => (fun t => quote kv.1 ++ 58 :: t)
                                      <$> ser kv.2) kvs) ++ [125])
  end.

Definition stringify (v : value) : option text := ser v.

(** *** [JSON.parse] *)

Definition is_ws (c : char) : bool :=
  (c =? 32) || (c =? 9) || (c =? 10) || (c =? 13).

Fixpoint skip_ws (s : text) : text :=
  match s with
  | c :: r => if is_ws c then skip_ws r else s
  | [] => []
  end.

Definition hex_val (c : char) : option N :=
  if (48 <=? c) && (c <=? 57) then Some (c - 48)
  else if (97 <=? c) && (c <=? 102) then Some (c - 87)
  else if (65 <=? c) && (c <=? 70) then Some (c - 55)
  else None.

Definition hex4 (h1 h2 h3 h4 : char) : option char :=
  a ← hex_val h1; b ← hex_val h2; c ← hex_val h3; d ← hex_val h4;
  Some (((a * 16 + b) * 16 + c) * 16 + d).

Definition unescape (e : char) : option char :=
  if e =? dquote then Some dquote
  else if e =? backslash then Some backslash
  else if e =? 47 then Some 47
  else if e =? 98 then Some 8
  else if e =? 102 then Some 12
  else if e =? 110 then Some 10
  else if e =? 114 then Some 13
  else if e =? 116 then Some 9
  else None.

Definition cons_char (c : char) (r : option (text * text)) :
  option (text * text) :=
  match r with
  | Some (s, rest) => Some (c :: s, rest)
  | None => None
  end.

(** The characters of a string literal, read from just after its opening
    quote up to and including the closing quote. *)
Fixpoint parse_string (s : text) : option (text * text) :=
  match s with
  | [] => None
  | c :: r =>
    if c =? dquote then Some ([], r)
    else if c =? backslash then
      match r with
      | [] => None
      | e :: r1 =>
        if e =? 117 then
          match r1 with
          | h1 :: h2 :: h3 :: h4 :: r2 =>
            match hex4 h1 h2 h3 h4 with
            | Some u => cons_char u (parse_string r2)
            | None => None
            end
          | _ => None
          end
        else
          match unescape e with
          | Some u => cons_char u (parse_string r1)
          | None => None
          end
      end
    else if c <? 32 then None
    else cons_char c (parse_string r)
  end.

(** The longest prefix of decimal digits. *)
Fixpoint span_digits (s : text) : list digit * text :=
  match s with
  | c :: r =>
    match char_digit c with
    | Some d => let '(ds, rest) := span_digits r in (d :: ds, rest)
    | None => ([], s)
    end
  | [] => ([], [])
  end.

Definition parse_frac (s : text) : option (list digit * text) :=
  match s with
  | c :: r =>
    if c =? 46 then
      match span_digits r with
      | ([], _) => None
      | (fp, rest) => Some (fp, rest)
      end
    else Some ([], s)
  | [] => Some ([], [])
  end.

Definition parse_sign (s : text) : bool * text :=
  match s with
  | c :: r =>
    if c =? 45 then (true, r) else if c =? 43 then (false, r)
    else (false, s)
  | [] => (false, [])
  end.

Definition parse_exp (s : text) : option (Z * text) :=
  match s with
  | c :: r =>
    if (c =? 101) || (c =? 69) then
      let '(neg, r1) := parse_sign r in
      match span_digits r1 with
      | ([], _) => None
      | (ds, rest) =>
        let m := Z.of_N (digits_N ds) in
        Some (if neg then (- m)%Z else m, rest)
      end
    else Some (0%Z, s)
  | [] => Some (0%Z, [])
  end.

(** A JSON number after its sign: integer part without a superfluous
    leading zero, optional fraction, optional exponent. The decimal is
    kept exactly; what the rounding to binary64 brings (an infinity for a
    decimal too large, a zero for one too small) is outside the model. *)
Definition parse_unsigned (neg : bool) (s : text) :
  option (number * text) :=
  let '(ip, s2) := span_digits s in
  match ip with
  | [] => None
  | d0 :: _ :: _ => None
  | _ =>
    '(fp, s3) ← parse_frac s2;
    '(e, s4) ← parse_exp s3;
    Some (mk_number neg (ip ++ fp) (e + Z.of_nat (length ip)), s4)
  end.

Definition parse_number (s : text) : option (number * text) :=
  match s with
  | c :: r => if c =? 45 then parse_unsigned true r
              else parse_unsigned false s
  | [] => None
  end.

Definition expect (t : text) (s : text) : option text :=
  if decide (take (length t) s = t) then Some (drop (length t) s)
  else None.

(** [CreateDataProperty] on the member list of an object under
    construction: a repeated key overwrites the earlier value. *)
Fixpoint obj_set (k : text) (v : value) (kvs : list (text * value)) :
  list (text * value) :=
  match kvs with
  | [] => [(k, v)]
  | (k', v') :: r =>
    if decide (k' = k) then (k, v) :: r else (k', v') :: obj_set k v r
  end.

(** The elements of an array after the first one: [, value]* then [[]]. *)
Fixpoint parse_elems (pv : text → option (value * text)) (fuel : nat)
  (acc : list value) (s : text) : option (list value * text) :=
  match fuel with
  | O => None
  | S fuel' =>
    match skip_ws s with
    | c :: r =>
      if c =? 93 then Some (reverse acc, r)
      else if c =? 44 then
        '(v, r1) ← pv r;
        parse_elems pv fuel' (v :: acc) r1
      else None
    | [] => None
    end
  end.

Definition parse_member (pv : text → option (value * text)) (s : text) :
  option (text * value * text) :=
  match skip_ws s with
  | c :: r =>
    if c =? dquote then
      '(k, r1) ← parse_string r;
      match skip_ws r1 with
      | c1 :: r2 =>
        if c1 =? 58 then '(v, r3) ← pv r2; Some (k, v, r3) else None
      | [] => None
      end
    else None
  | [] => None
  end.

(** The members of an object after the first one. *)
Fixpoint parse_members (pv : text → option (value * text)) (fuel : nat)
  (acc : list (text * value)) (s : text) :
  option (list (text * value) * text) :=
  match fuel with
  | O => None
  | S fuel' =>
    match skip_ws s with
    | c :: r =>
      if c =? 125 then Some (acc, r)
      else if c =? 44 then
        '(k, v, r1) ← parse_member pv r;
        parse_members pv fuel' (obj_set k v acc) r1
      else None
    | [] => None
    end
  end.

(** Whether the text, after white space, starts with the character. *)
Definition next_is (c : char) (s : text) : option text :=
  match skip_ws s with
  | c' :: r => if c' =? c then Some r else None
  | [] => None
  end.

Fixpoint parse_value (fuel : nat) (s : text) : option (value * text) :=
  match fuel with
  | O => None
  | S fuel' =>
    match skip_ws s with
    | [] => None
    | c :: r =>
      if c =? 123 then
        match next_is 125 r with
        | Some r1 => Some (VObj [], r1)
        | None =>
          '(k, v, r1) ← parse_member (parse_value fuel') r;
          '(kvs, r2) ← parse_members (parse_value fuel') fuel' [(k, v)] r1;
          Some (VObj kvs, r2)
        end
      else if c =? 91 then
        match next_is 93 r with
        | Some r1 => Some (VArr [], r1)
        | None =>
          '(v, r1) ← parse_value fuel' r;
          '(vs, r2) ← parse_elems (parse_value fuel') fuel' [v] r1;
          Some (VArr vs, r2)
        end
      else if c =? dquote then
        '(str, r1) ← parse_string r; Some (VStr str, r1)
      else if c =? 116 then
        r1 ← expect (lit "rue") r; Some (VBool true, r1)
      else if c =? 102 then
        r1 ← expect (lit "alse") r; Some (VBool false, r1)
      else if c =? 110 then
        r1 ← expect (lit "ull") r; Some (VNull, r1)
      else
        '(x, r1) ← parse_number (c :: r); Some (VNum x, r1)
    end
  end.

(** [JSON.parse]: one value between optional white space, and nothing
    after it. [None] stands for the [SyntaxError] the function throws. *)
Definition parse (s : text) : option value :=
  match parse_value (S (length s)) s with
  | Some (v, rest) =>
    match skip_ws rest with
    | [] => Some v
    | _ => None
    end
  | None => None
  end.

End JSON.

(** ** Completions and the state-and-exception monad

    A JavaScript call either returns or throws, and what it did to the
    state before throwing stays done. *)

Inductive exn :=
| SyntaxError      (* thrown by [JSON.parse] *)
| TypeError        (* property read on [undefined] or [null] *)
| UserError (tag : nat). (* thrown by a receiving function *)

Inductive completion (A : Type) :=
| Normal (a : A)
| Throw (e : exn).
Arguments Normal {A} a.
Arguments Throw {A} e.

Definition M (St A : Type) : Type := St → completion A * St.

Definition ret {St A} (a : A) : M St A := fun σ => (Normal a, σ).
Definition throw {St A} (e : exn) : M St A := fun σ => (Throw e, σ).
Definition bind {St A B} (m : M St A) (k : A → M St B) : M St B :=
  fun σ =>
    match m σ with
    | (Normal a, σ') => k a σ'
    | (Throw e, σ') => (Throw e, σ')
    end.
Definition gets {St A} (f : St → A) : M St A := fun σ => (Normal (f σ), σ).
Definition modify {St} (f : St → St) : M St unit := fun σ => (Normal tt, f σ).

Declare Scope js_scope.
Delimit Scope js_scope with js.
Notation "'let!' x ':=' m 'in' k" := (bind m (fun x => k))
  (at level 10, x name, m at level 100, k at level 200) : js_scope.
Notation "m ';;;' k" := (bind m (fun _ => k))
  (at level 100, k at level 200, right associativity) : js_scope.
Local Open Scope js_scope.

(** [Array.prototype.forEach] on an array that lives in the state, so that
    the callback may change it under the loop's feet: the length is read
    once, the index runs from 0 to that length, and an index that is no
    longer (or not yet) inside the array at its turn is passed over. *)
Fixpoint forEach_from {St A} (arr : St → list A) (cb : A → M St unit)
  (n k : nat) : M St unit :=
  match n with
  | O => ret tt
  | S n' => fun σ =>
    match arr σ !! k with
    | Some x => (cb x ;;; forEach_from arr cb n' (S k)) σ
    | None => forEach_from arr cb n' (S k) σ
    end
  end.

Definition forEach {St A} (arr : St → list A) (cb : A → M St unit) :
  M St unit :=
  fun σ => forEach_from arr cb (length (arr σ)) 0 σ.

(** The own property [k] of an object, [undefined] when it has none. *)
Fixpoint obj_get (kvs : list (text * value)) (k : text) : value :=
  match kvs with
  | [] => VUndefined
  | (k', v) :: r => if decide (k' = k) then v else obj_get r k
  end.

(** Property read [v.k] for a key [k] that no built-in prototype defines
    (all keys the sources read are such: [command], [data], [from], [to],
    [pos], [size], [color]): a [TypeError] on [undefined] and [null],
    [undefined] on the other primitives and on arrays. *)
Definition get_prop {St} (v : value) (k : text) : M St value :=
  match v with
  | VUndefined | VNull => throw TypeError
  | VObj kvs => ret (obj_get kvs k)
  | _ => ret VUndefined
  end.

(** ** [EventClass] (socket.ts) *)

(** What is handed to the receiving functions of an event: a JavaScript
    value, or a reference to a [Socket] object. *)
Inductive arg :=
| AVal (v : value)
| ASocket (s : nat).

Section EventClass.

(** The receiving functions are the environment's: [Fn] names them,
    [call] runs one on the state [St] outside the emitting object. *)
Context {Fn St : Type}.
Variable call : Fn → list arg → M St unit.

(** The [fn] field of a registered object: the function given to [on],
    or the closure [once] builds around the function it was given. *)
Inductive receiver :=
| Plain (fn : Fn)
| OnceWrapper (fn : Fn) (event : string).

(** One [{fn, id}] object of an event's array; [oid] is the identity of
    the object, fresh at every registration. *)
Record entry := Entry { oid : nat; fn : receiver; id : string }.

Record EventClass := MkEventClass {
  events : gmap string (list entry);
  next_oid : nat;
  console : list string
}.

Definition set_events (f : gmap string (list entry) →
                           gmap string (list entry))
  (this : EventClass) : EventClass :=
  MkEventClass (f (events this)) (next_oid this) (console this).

(** [console.warn] and [console.log]: a line written to the console. *)
Definition warn (line : string) (this : EventClass) : EventClass :=
  MkEventClass (events this) (next_oid this) (console this ++ [line]).

(** [this.events.get(event)], the array itself: the map is never set
    again for a name it holds, so the array under a name stays the same
    object and every change to it is seen by whoever iterates over it. *)
Definition events_get (event : string) (this : EventClass) : list entry :=
  default [] (events this !! event).

Definition createEvent (name : string) (this : EventClass) : EventClass :=
  match events this !! name with
  | Some _ => this
  | None => set_events (insert name []) this
  end.

Definition constructor (eventNames : list string) : EventClass :=
  foldl (fun this name => createEvent name this)
        (MkEventClass ∅ 0 []) eventNames.

(** The guard that opens [emitEvent], [on], [once] and [debugEvent]. *)
Definition ensure (event : string) (this : EventClass) : EventClass :=
  match events this !! event with
  | Some _ => this
  | None =>
    set_events (insert event [])
               (warn ("event not yet created: " +:+ event) this)
  end.

Definition push (event : string) (o : entry) (this : EventClass) :
  EventClass :=
  set_events (alter (fun arr => arr ++ [o]) event) this.

Definition on (event : string) (f : Fn) (id : string)
  (this : EventClass) : EventClass :=
  let this := ensure event this in
  let o := Entry (next_oid this) (Plain f) id in
  push event o
       (MkEventClass (events this) (S (next_oid this)) (console this)).

Definition once (event : string) (f : Fn) (id : string)
  (this : EventClass) : EventClass :=
  let this := ensure event this in
  let wrapper := Entry (next_oid this) (OnceWrapper f event) id in
  push event wrapper
       (MkEventClass (events this) (S (next_oid this)) (console this)).

(** Modelled from the spec: [array_remove] of [./util], which the sources
    import and do not contain. The spec has it remove the wrapper "using
    identity-based removal from the ordered sequence": the first element
    that is the very object [item] is spliced out of the array, in
    place. *)
Fixpoint array_remove (array : list entry) (item : nat) : list entry :=
  match array with
  | [] => []
  | o :: rest =>
    if decide (oid o = item) then rest else o :: array_remove rest item
  end.

(** [o.fn(...args)] for a registered object [o]. *)
Definition apply (o : entry) (args : list arg) :
  M (EventClass * St) unit :=
  match fn o with
  | Plain f => fun σ =>
    let '(r, s) := call f args σ.2 in (r, (σ.1, s))
  | OnceWrapper f event => fun σ =>
    match call f args σ.2 with
    | (Normal _, s) =>
      match events σ.1 !! event with
      | Some arr =>
        (Normal tt,
         (set_events (insert event (array_remove arr (oid o))) σ.1, s))
      | None => (Throw TypeError, (σ.1, s))
      end
    | (Throw e, s) => (Throw e, (σ.1, s))
    end
  end.

Definition emitEvent (event : string) (args : list arg) :
  M (EventClass * St) unit :=
  modify (fun σ => (ensure event σ.1, σ.2)) ;;;
  forEach (fun σ => events_get event σ.1) (fun o => apply o args).

Definition debugEvent (event : string) (this : EventClass) : EventClass :=
  let this := ensure event this in
  foldl (fun this o => warn (id o) this)
        (warn ("ids registered to event `" +:+ event +:+ "`:") this)
        (events_get event this).

(** *** [Socket] (socket.ts) *)

(** The handler the constructor attaches to the connection's [message]
    event, for the socket of identity [this]. *)
Definition on_message (this : nat) (dataString : text) :
  M (EventClass * St) unit :=
  match JSON.parse dataString with
  | None => throw SyntaxError
  | Some data =>
    let! command := get_prop data (lit "command") in
    let! payload := get_prop data (lit "data") in
    emitEvent "data" [AVal command; AVal payload; ASocket this]
  end.

End EventClass.

(** ** The server: shared state *)

(** Modelled from the spec: the classes [Canvas] and [Point] of [./canvas]
    and [./point], which the sources import and do not contain. The spec
    keeps the drawing surface opaque ("rasterization internals are out of
    scope") behind [drawLine], [fillCircle], [fill] and a snapshot capture
    that observes the canvas "at the instant it is requested". The surface
    is therefore held as the sequence of drawing calls made on it, each
    with the arguments the source passes; a snapshot is the surface at
    the instant of capture. The spec gives [line], [dot] and [erase] on
    payloads that have the members they read; what [Point.fromArray] does
    on anything else is not modelled, and the statements on what is drawn
    take such a payload. *)
Inductive drawcall :=
| drawLine (from to color size : value)
    (* canvas.drawLine(Point.fromArray(from), Point.fromArray(to), color, size) *)
| fillCircleInSquare (pos size color : value)
    (* canvas.fillCircleInSquare(Point.fromArray(pos).minus(new Point(size / 2)), size, color) *)
| fill (color : text).

Record Canvas := MkCanvas {
  size : number * number;
  calls : list drawcall
}.

Definition Canvas_draw (c : drawcall) (canvas : Canvas) : Canvas :=
  MkCanvas (size canvas) (calls canvas ++ [c]).

(** [canvas.size.toArray()] *)
Definition size_toArray (canvas : Canvas) : value :=
  VArr [VNum (size canvas).1; VNum (size canvas).2].

(** A frame handed to [ws.send]. *)
Inductive frame :=
| TextFrame (t : text)
| BinaryFrame (snapshot : Canvas).

(** What runs when a blob or a file read completes. *)
Inductive continuation :=
| SaveIt                 (* the callbacks of [saveCanvas] *)
| SendAndSave (socket : nat).  (* the callbacks of the [join] case *)

(** A callback waiting on the event loop. *)
Inductive task :=
| BlobCreated (blob : Canvas) (k : continuation)
| ReaderLoaded (result : Canvas) (k : continuation).

Record world := MkWorld {
  sockets : list nat;          (* const sockets : Socket[] *)
  canvas : Canvas;
  not_open : gset nat;         (* connections whose readyState is not OPEN *)
  sent : list (nat * frame);   (* every frame a ws.send handed over, in order *)
  pending : list task;
  boards : list (N * Canvas);  (* fs.writeFile('boards/' + time + '.png', ...) *)
  now : N                      (* Date.now() *)
}.

Definition set_sockets f (w : world) : world :=
  MkWorld (f (sockets w)) (canvas w) (not_open w) (sent w) (pending w)
          (boards w) (now w).
Definition set_canvas f (w : world) : world :=
  MkWorld (sockets w) (f (canvas w)) (not_open w) (sent w) (pending w)
          (boards w) (now w).
Definition set_sent f (w : world) : world :=
  MkWorld (sockets w) (canvas w) (not_open w) (f (sent w)) (pending w)
          (boards w) (now w).
Definition set_pending f (w : world) : world :=
  MkWorld (sockets w) (canvas w) (not_open w) (sent w) (f (pending w))
          (boards w) (now w).
Definition set_boards f (w : world) : world :=
  MkWorld (sockets w) (canvas w) (not_open w) (sent w) (pending w)
          (f (boards w)) (now w).

(** Modelled from the spec: [ws.send] of the [ws] package, which the
    sources import and do not contain, called without a callback as
    [write] and [writeArrayBuffer] call it. The spec has "fire-and-forget
    semantics per destination" and "transient transport failures simply
    drop that one message for that one destination": on a connection that
    is not open the frame is dropped and the call returns; on an open one
    the frame is handed over. *)
Definition ws_send (socket : nat) (f : frame) : M world unit :=
  fun w =>
    if decide (socket ∈ not_open w) then (Normal tt, w)
    else (Normal tt, set_sent (fun l => l ++ [(socket, f)]) w).

(** The text of the envelope [{command: command, data: data}]. *)
Definition envelope (command data : value) : text :=
  default [] (JSON.stringify
                (VObj [(lit "command", command); (lit "data", data)])).
#[global] Arguments envelope : simpl never.

(** [Socket.write] and [Socket.writeArrayBuffer] (socket.ts). *)
Definition write (socket : nat) (command data : value) : M world unit :=
  ws_send socket (TextFrame (envelope command data)).

Definition writeArrayBuffer (socket : nat) (arrayBuffer : Canvas) :
  M world unit :=
  ws_send socket (BinaryFrame arrayBuffer).

(** The inbound path of [Socket] read as a decoder: the [(command, data)]
    pair that [on_message] hands to the [data] event. *)
Definition decode (dataString : text) : completion (value * value) :=
  match JSON.parse dataString with
  | None => Throw SyntaxError
  | Some data =>
    fst ((let! command := get_prop data (lit "command") in
          let! payload := get_prop data (lit "data") in
          ret (command, payload)) tt)
  end.

(** ** The server: functions *)

Definition broadcast (command data : value) (exclude : option nat) :
  M world unit :=
  forEach sockets
    (fun socket =>
       if decide (Some socket = exclude) then ret tt
       else write socket command data).

(** Modelled from the spec: [Canvas.createBlob] of [./canvas]. The capture
    is "synchronous with respect to canvas state at the instant it is
    requested" and the encoded bytes arrive later, in a callback. *)
Definition createBlob (k : continuation) : M world unit :=
  modify (fun w => set_pending (fun q => q ++ [BlobCreated (canvas w) k]) w).

Definition saveCanvas (buffer : option Canvas) : M world unit :=
  match buffer with
  | Some b => modify (fun w => set_boards (fun l => l ++ [(now w, b)]) w)
  | None => createBlob SaveIt
  end.

(** [case 'label':] of a [switch (v)]: strict equality with a string. *)
Definition case_is (v : value) (label : text) : bool :=
  match v with
  | VStr s => bool_decide (s = label)
  | _ => false
  end.

Definition handleData (command _data : value) (socket : nat) :
  M world unit :=
  if case_is command (lit "join") then
    modify (set_sockets (fun l => l ++ [socket])) ;;;
    (let! size := gets (fun w => size_toArray (canvas w)) in
     write socket (VStr (lit "join")) (VObj [(lit "size", size)])) ;;;
    createBlob (SendAndSave socket)
  else if case_is command (lit "line") then
    let data := _data in
    let! from := get_prop data (lit "from") in
    let! to := get_prop data (lit "to") in
    let! color := get_prop data (lit "color") in
    let! size := get_prop data (lit "size") in
    modify (set_canvas (Canvas_draw (drawLine from to color size))) ;;;
    broadcast command data None
  else if case_is command (lit "dot") then
    let data := _data in
    let! pos := get_prop data (lit "pos") in
    let! size := get_prop data (lit "size") in   (* data.size / 2 *)
    let! size := get_prop data (lit "size") in
    let! color := get_prop data (lit "color") in
    modify (set_canvas (Canvas_draw (fillCircleInSquare pos size color))) ;;;
    broadcast command data None
  else if case_is command (lit "erase") then
    let data := _data in
    let! from := get_prop data (lit "from") in
    let! to := get_prop data (lit "to") in
    let! size := get_prop data (lit "size") in
    modify (set_canvas
              (Canvas_draw (drawLine from to (VStr (lit "white")) size))) ;;;
    broadcast command data None
  else if case_is command (lit "clear") then
    saveCanvas None ;;;
    modify (set_canvas (Canvas_draw (fill (lit "white")))) ;;;
    broadcast command _data None
  else ret tt.

(** One turn of the event loop on a waiting callback. *)
Definition run_task (t : task) : M world unit :=
  match t with
  | BlobCreated blob k =>
    (* reader.readAsArrayBuffer(blob) *)
    modify (set_pending (fun q => q ++ [ReaderLoaded blob k]))
  | ReaderLoaded result SaveIt =>
    saveCanvas (Some result)
  | ReaderLoaded result (SendAndSave socket) =>
    writeArrayBuffer socket result ;;;
    saveCanvas (Some result)
  end.

(** The event loop takes the oldest waiting callback. *)
Definition step : M world unit :=
  fun w =>
    match pending w with
    | [] => (Normal tt, w)
    | t :: q => run_task t (set_pending (fun _ => q) w)
    end.

(** The receiving functions the server registers on its sockets. *)
Inductive server_fn := HandleData.

Definition call_server (f : server_fn) (args : list arg) : M world unit :=
  match f, args with
  | HandleData, [AVal command; AVal _data; ASocket socket] =>
    handleData command _data socket
  | HandleData, _ => throw TypeError
  end.

(** The [connection] handler of the WebSocket server: the state of the new
    [Socket] object and the greeting it is sent. *)
Definition on_connection (ws : nat) :
  M world (EventClass (Fn := server_fn)) :=
  let socket := constructor ["data"] in
  let socket := on "data" HandleData "[unidentified]" socket in
  write ws (VStr (lit "hi")) VUndefined ;;;
  ret socket.

(** A message frame arriving on the connection of [socket]. *)
Definition receive (socket : nat) (dataString : text) :
  M (EventClass (Fn := server_fn) * world) unit :=
  on_message call_server socket dataString.

(** ** Recording receivers

    For statements about which receivers an emission runs, receivers are
    numbered and the state outside the emitter is the list of the calls
    made so far, each with the arguments it was passed. *)
Definition record_call (f : nat) (args : list arg) :
  M (list (nat * list arg)) unit :=
  fun calls => (Normal tt, calls ++ [(f, args)]).

(** The canvas as the server creates it: 1920 by 1080, filled white. *)
Definition canvas0 : Canvas :=
  Canvas_draw (fill (lit "white"))
              (MkCanvas (num_of_Z 1920, num_of_Z 1080) []).

(** The server at start-up, at time [t]: nobody registered, nothing sent. *)
Definition startup (t : N) : world := MkWorld [] canvas0 ∅ [] [] [] t.

(** ** Vocabulary of the statements *)

(** A finite number as the model holds it: zero is the empty digit string
    with exponent 0, any other number has a digit string without a leading
    and without a trailing zero. Negative zero is kept apart: [neg_zero]. *)
Definition canonical (ds : list digit) (n : Z) : Prop :=
  match ds with
  | [] => n = 0%Z
  | d :: _ => d ≠ d0 ∧ last ds ≠ Some d0
  end.

Definition neg_zero : number := Finite true [] 0.

(** A payload built from nested arrays, finite numbers other than negative
    zero, and strings. *)
Inductive payload : value → Prop :=
| payload_number neg ds n :
    canonical ds n → Finite neg ds n ≠ neg_zero →
    payload (VNum (Finite neg ds n))
| payload_string s : payload (VStr s)
| payload_array l : Forall payload l → payload (VArr l).

(** The text does not go on with a digit. *)
Definition no_digit (s : text) : Prop :=
  match s with [] => True | c :: _ => char_digit c = None end.

(** The text does not go on as a number would: what follows a value inside
    an array or an object never does. *)
Definition terminated (s : text) : Prop :=
  match s with
  | [] => True
  | c :: _ => char_digit c = None ∧ c ≠ 46 ∧ c ≠ 101 ∧ c ≠ 69
  end.

(** The text [JSON.stringify] writes for a value, where it writes one. *)
Definition text_of (v : value) : text := default [] (JSON.ser v).

(** The first character of a payload's text: what [parse_value] branches
    on. *)
Inductive starts : value → N → Prop :=
| starts_minus ds n : starts (VNum (Finite true ds n)) 45
| starts_digit ds n d : starts (VNum (Finite false ds n)) (digit_char d)
| starts_quote s : starts (VStr s) 34
| starts_bracket l : starts (VArr l) 91.

(** A callback run on each element of a list that nobody changes. *)
Fixpoint each {St A} (cb : A → M St unit) (l : list A) : M St unit :=
  match l with
  | [] => ret tt
  | x :: r => cb x ;;; each cb r
  end.

(** The destinations whose connection is open, in order. *)
Definition live (closed : gset nat) (dests : list nat) : list nat :=
  filter (fun t => t ∉ closed) dests.

(** The destinations of [broadcast]: the registry without [exclude]. *)
Definition destinations (exclude : option nat) (l : list nat) : list nat :=
  filter (fun t => Some t ≠ exclude) l.

(** One text frame with the envelope of [(command, data)] per destination. *)
Definition deliveries (command data : value) (dests : list nat) :
  list (nat * frame) :=
  (fun t => (t, TextFrame (envelope command data))) <$> dests.

(** The frames a session has been sent, oldest first. *)
Definition inbox (s : nat) (l : list (nat * frame)) : list frame :=
  (filter (fun p => p.1 = s) l).*2.

(** ** Vocabulary of the further properties *)

(** Whether a registered object holds a function given to [on]. *)
Definition is_plain {Fn} (o : entry (Fn := Fn)) : bool :=
  match fn o with
  | Plain _ => true
  | OnceWrapper _ _ => false
  end.

(** The state of an [EventClass] that [on] and [once] build: under every
    name, the registered objects have identities below the next fresh one
    and pairwise different, and a one-shot wrapper sits in the array of the
    event it was registered for. *)
Definition registry_wf {Fn} (this : EventClass (Fn := Fn)) : Prop :=
  ∀ event arr, events this !! event = Some arr →
    Forall (fun o => (oid o < next_oid this)%nat) arr ∧
    NoDup (oid <$> arr) ∧
    Forall (fun o => ∀ f e, fn o = OnceWrapper f e → e = event) arr.


(** How the server's state may differ after some of its code has run:
    the registry, the sent log, the saved boards and the drawing calls on
    the canvas have only been added to at the end; the canvas size, the
    connections and the clock are as before. *)
Definition grows (w w' : world) : Prop :=
  sockets w `prefix_of` sockets w' ∧
  calls (canvas w) `prefix_of` calls (canvas w') ∧
  size (canvas w') = size (canvas w) ∧
  sent w `prefix_of` sent w' ∧
  boards w `prefix_of` boards w' ∧
  not_open w' = not_open w ∧
  now w' = now w.

(** The turns of the event loop a waiting callback still needs. *)
Definition turns (t : task) : nat :=
  match t with
  | BlobCreated _ _ => 2
  | ReaderLoaded _ _ => 1
  end.

(** A piece of the server's code that takes every state to one related to
    it by [R], whether it returns or throws. *)
Definition respects {A} (R : world → world → Prop) (m : M world A) : Prop :=
  ∀ w, R w (m w).2.

(** The members of a drawing payload as the clients send them: a point is
    an array of two numbers, a colour a string, a size a number. *)
Definition point (v : value) : Prop := ∃ x y, v = VArr [VNum x; VNum y].
Definition colour (v : value) : Prop := ∃ c, v = VStr c.
Definition width (v : value) : Prop := ∃ x, v = VNum x.

(** The frames a list of sessions is sent when each gets the text [t]. *)
Definition copies (t : text) (dests : list nat) : list (nat * frame) :=
  (fun s => (s, TextFrame t)) <$> dests.

(** JSON values with finite numbers: [null], booleans, finite numbers,
    strings, arrays of such values, and objects of such values with
    pairwise different keys. *)
Inductive json_value : value → Prop :=
| json_null : json_value VNull
| json_bool b : json_value (VBool b)
| json_number neg ds n : canonical ds n → json_value (VNum (Finite neg ds n))
| json_string s : json_value (VStr s)
| json_array l : Forall json_value l → json_value (VArr l)
| json_object kvs :
    NoDup kvs.*1 → Forall (fun kv => json_value kv.2) kvs →
    json_value (VObj kvs).

(** Whether a negative zero occurs somewhere in the value. *)
Fixpoint mentions_neg_zero (v : value) : bool :=
  match v with
  | VNum (Finite true [] _) => true
  | VArr l => existsb mentions_neg_zero l
  | VObj kvs => existsb (fun kv => mentions_neg_zero kv.2) kvs
  | _ => false
  end.

(** The text of one member of an object. *)
Definition member_text (kv : text * value) : text :=
  JSON.quote kv.1 ++ 58 :: text_of kv.2.

(** ** Facts about the monad and [forEach] *)

Lemma forEach_from_each {St A} (arr : St → list A) (cb : A → M St unit) l :
  (∀ x σ, x ∈ l → arr σ = l → arr (cb x σ).2 = l) →
  ∀ n k σ, arr σ = l → (n + k)%nat = length l →
    forEach_from arr cb n k σ = each cb (drop k l) σ.
Proof.
  intros Hstable n. induction n as [|n IH]; intros k σ Harr Hlen.
  - rewrite drop_ge by lia. reflexivity.
  - destruct (lookup_lt_is_Some_2 l k) as [x Hx]; [lia|].
    rewrite (drop_S _ _ _ Hx). simpl. rewrite Harr, Hx. unfold bind.
    specialize (Hstable x σ (list_elem_of_lookup_2 _ _ _ Hx) Harr).
    destruct (cb x σ) as [[[]|e] σ']; simpl in *; [|reflexivity].
    apply IH; [done|lia].
Qed.

(** On an array the callback leaves alone, [forEach] visits every element
    in order. *)
Lemma forEach_each {St A} (arr : St → list A) (cb : A → M St unit) σ :
  (∀ x σ', x ∈ arr σ → arr σ' = arr σ → arr (cb x σ').2 = arr σ) →
  forEach arr cb σ = each cb (arr σ) σ.
Proof.
  intros H. unfold forEach.
  by rewrite (forEach_from_each arr cb (arr σ)) by (auto with lia).
Qed.

(** ** Facts about [broadcast] *)

Lemma set_sent_nil w : set_sent (fun l => l ++ []) w = w.
Proof. destruct w. unfold set_sent. simpl. by rewrite app_nil_r. Qed.

Lemma destinations_cons exclude t l :
  destinations exclude (t :: l) =
  if decide (Some t = exclude) then destinations exclude l
  else t :: destinations exclude l.
Proof.
  unfold destinations. rewrite filter_cons.
  destruct (decide (Some t = exclude)) as [Heq|Hne].
  - by rewrite decide_False by (intros H; by apply H).
  - by rewrite decide_True.
Qed.

Lemma live_cons closed t (l : list nat) :
  live closed (t :: l) =
  if decide (t ∈ closed) then live closed l else t :: live closed l.
Proof.
  unfold live. rewrite filter_cons.
  destruct (decide (t ∈ closed)) as [Hc|Ho].
  - by rewrite decide_False by (intros H; by apply H).
  - by rewrite decide_True.
Qed.

Lemma live_all_open (l : list nat) : live ∅ l = l.
Proof.
  induction l as [|t l IH]; [done|].
  rewrite live_cons, decide_False by apply not_elem_of_empty. by rewrite IH.
Qed.

Lemma each_write command data exclude l w :
  each (fun socket =>
          if decide (Some socket = exclude) then ret tt
          else write socket command data) l w =
  (Normal tt,
   set_sent (fun s => s ++ deliveries command data
                        (live (not_open w) (destinations exclude l))) w).
Proof.
  revert w. induction l as [|t l IH]; intros w.
  - simpl. by rewrite set_sent_nil.
  - rewrite destinations_cons. cbn [each]. unfold bind.
    destruct (decide (Some t = exclude)) as [Heq|Hne].
    + cbn [ret]. apply IH.
    + unfold write, ws_send. rewrite live_cons.
      destruct (decide (t ∈ not_open w)) as [Hc|Ho].
      * apply IH.
      * rewrite IH. cbn [not_open set_sent]. f_equal.
        destruct w. unfold set_sent, deliveries. cbn.
        by rewrite <- app_assoc.
Qed.

(** [broadcast] never throws: it sends the envelope to every destination
    whose connection is open, in registry order. *)
Lemma broadcast_spec command data exclude w :
  broadcast command data exclude w =
  (Normal tt,
   set_sent (fun s => s ++ deliveries command data
               (live (not_open w) (destinations exclude (sockets w)))) w).
Proof.
  unfold broadcast. rewrite forEach_each.
  - apply each_write.
  - intros t σ _ Hs. destruct (decide (Some t = exclude)); [done|].
    unfold write, ws_send. by destruct (decide (t ∈ not_open σ)).
Qed.

Lemma destinations_None (l : list nat) : destinations None l = l.
Proof.
  unfold destinations. induction l as [|t l IH]; [done|].
  rewrite filter_cons_True by done. by rewrite IH.
Qed.

Lemma count_live s closed (l : list nat) :
  s ∉ closed →
  filter (fun t => t = s) (live closed l) = filter (fun t => t = s) l.
Proof.
  intros Hs. induction l as [|t l IH]; [done|].
  rewrite live_cons. destruct (decide (t ∈ closed)) as [Hc|Ho].
  - rewrite IH, filter_cons_False; [done|]. by intros ->.
  - by rewrite !filter_cons, IH.
Qed.

Lemma inbox_app s l1 l2 : inbox s (l1 ++ l2) = inbox s l1 ++ inbox s l2.
Proof. unfold inbox. by rewrite filter_app, fmap_app. Qed.

Lemma inbox_deliveries s command data (l : list nat) :
  inbox s (deliveries command data l) =
  replicate (length (filter (fun t => t = s) l))
            (TextFrame (envelope command data)).
Proof.
  unfold inbox, deliveries. induction l as [|t l IH]; [done|].
  rewrite fmap_cons, !filter_cons. simpl.
  destruct (decide (t = s)); [rewrite fmap_cons|]; by rewrite IH.
Qed.

Lemma count_destinations s exclude (l : list nat) :
  Some s ≠ exclude →
  filter (fun t => t = s) (destinations exclude l) =
  filter (fun t => t = s) l.
Proof.
  intros Hne. induction l as [|t l IH]; [done|].
  rewrite destinations_cons.
  destruct (decide (Some t = exclude)) as [Heq|Hk].
  - rewrite IH, filter_cons_False; [done|]. intros ->. by apply Hne.
  - by rewrite !filter_cons, IH.
Qed.

(** ** Facts about [handleData] *)

Lemma case_is_VStr s label : case_is (VStr s) label = bool_decide (s = label).
Proof. reflexivity. Qed.

Lemma handleData_join _data socket w :
  handleData (VStr (lit "join")) _data socket w =
  (write socket (VStr (lit "join"))
         (VObj [(lit "size", size_toArray (canvas w))]) ;;;
   createBlob (SendAndSave socket))
    (set_sockets (fun l => l ++ [socket]) w).
Proof. reflexivity. Qed.

Lemma handleData_clear _data socket w :
  handleData (VStr (lit "clear")) _data socket w =
  broadcast (VStr (lit "clear")) _data None
    (set_canvas (Canvas_draw (fill (lit "white")))
       (set_pending (fun q => q ++ [BlobCreated (canvas w) SaveIt]) w)).
Proof. reflexivity. Qed.

Lemma handleData_line kvs socket w :
  handleData (VStr (lit "line")) (VObj kvs) socket w =
  broadcast (VStr (lit "line")) (VObj kvs) None
    (set_canvas
       (Canvas_draw (drawLine (obj_get kvs (lit "from"))
                              (obj_get kvs (lit "to"))
                              (obj_get kvs (lit "color"))
                              (obj_get kvs (lit "size")))) w).
Proof. reflexivity. Qed.

Lemma handleData_dot kvs socket w :
  handleData (VStr (lit "dot")) (VObj kvs) socket w =
  broadcast (VStr (lit "dot")) (VObj kvs) None
    (set_canvas
       (Canvas_draw (fillCircleInSquare (obj_get kvs (lit "pos"))
                                        (obj_get kvs (lit "size"))
                                        (obj_get kvs (lit "color")))) w).
Proof. reflexivity. Qed.

Lemma handleData_erase kvs socket w :
  handleData (VStr (lit "erase")) (VObj kvs) socket w =
  broadcast (VStr (lit "erase")) (VObj kvs) None
    (set_canvas
       (Canvas_draw (drawLine (obj_get kvs (lit "from"))
                              (obj_get kvs (lit "to"))
                              (VStr (lit "white"))
                              (obj_get kvs (lit "size")))) w).
Proof. reflexivity. Qed.

Lemma handleData_other command _data socket w :
  (∀ label, label ∈ [lit "join"; lit "line"; lit "dot"; lit "erase";
                     lit "clear"] → command ≠ VStr label) →
  handleData command _data socket w = (Normal tt, w).
Proof.
  intros H. unfold handleData.
  assert (∀ label, label ∈ [lit "join"; lit "line"; lit "dot"; lit "erase";
                            lit "clear"] → case_is command label = false)
    as Hc.
  { intros label Hl. destruct command; try done.
    rewrite case_is_VStr. apply bool_decide_eq_false_2. intros ->.
    by apply (H label). }
  rewrite !Hc by set_solver. reflexivity.
Qed.

Lemma handleData_join_spec w _data socket :
  handleData (VStr (lit "join")) _data socket w =
    (Normal tt,
     MkWorld (sockets w ++ [socket]) (canvas w) (not_open w)
             (sent w ++
              if decide (socket ∈ not_open w) then []
              else [(socket,
                     TextFrame (envelope (VStr (lit "join"))
                       (VObj [(lit "size", size_toArray (canvas w))])))])
             (pending w ++ [BlobCreated (canvas w) (SendAndSave socket)])
             (boards w) (now w)).
Proof.
  rewrite handleData_join. unfold bind, write, ws_send.
  cbn [not_open set_sockets].
  destruct (decide (socket ∈ not_open w)); [|done].
  unfold createBlob, modify, set_pending. cbn. by rewrite app_nil_r.
Qed.

(** ** Facts about the inbound path *)

Lemma get_prop_pure {St} v k (σ : St) :
  get_prop v k σ = ((get_prop v k tt).1, σ).
Proof. by destruct v. Qed.

(** The message handler hands the [data] event what [decode] reads. *)
Lemma on_message_decode {Fn St} (call : Fn → list arg → M St unit)
  this frame σ :
  on_message call this frame σ =
  match decode frame with
  | Throw e => (Throw e, σ)
  | Normal (command, payload) =>
    emitEvent call "data" [AVal command; AVal payload; ASocket this] σ
  end.
Proof.
  unfold on_message, decode. destruct (JSON.parse frame) as [data|]; [|done].
  unfold bind. rewrite (get_prop_pure data (lit "command") σ).
  destruct (get_prop data (lit "command") tt) as [[c|e] []]; [|done].
  cbn [fst]. rewrite (get_prop_pure data (lit "data") σ).
  by destruct (get_prop data (lit "data") tt) as [[d|e] []].
Qed.

Lemma ensure_declared {Fn} event (this : EventClass (Fn := Fn)) arr :
  events this !! event = Some arr → ensure event this = this.
Proof. intros H. unfold ensure. by rewrite H. Qed.

(** An emission to an event with one plain receiver is a call of it. *)
Lemma emitEvent_single {Fn St} (call : Fn → list arg → M St unit)
  event args this σ o f i :
  events this !! event = Some [Entry o (Plain f) i] →
  emitEvent call event args (this, σ) =
  ((call f args σ).1, (this, (call f args σ).2)).
Proof.
  intros Hev. unfold emitEvent, bind, modify, forEach, events_get.
  cbn [fst snd]. rewrite (ensure_declared _ _ _ Hev), Hev.
  cbn [from_option length forEach_from fst Datatypes.id]. rewrite Hev.
  cbn [from_option lookup list_lookup Datatypes.id]. unfold bind, apply, ret.
  cbn [fn fst snd].
  by destruct (call f args σ) as [[[]|e] s].
Qed.

(** ** The server's claims *)

(** C1 (the code departs from the claim). A drawing command [line], [dot],
    [erase] or [clear] that arrives from a registered session is sent by
    [handleData] to every session of the registry, the sender included:
    [broadcast] is called without its [exclude] argument. *)
Theorem C1_sender_receives_echo w socket command kvs :
  command ∈ [lit "line"; lit "dot"; lit "erase"; lit "clear"] →
  not_open w = ∅ →
  socket ∈ sockets w →
  ∃ w', handleData (VStr command) (VObj kvs) socket w = (Normal tt, w') ∧
        sent w' = sent w ++ deliveries (VStr command) (VObj kvs) (sockets w) ∧
        (socket, TextFrame (envelope (VStr command) (VObj kvs))) ∈ sent w'.
Proof.
  intros Hc Hopen Hin.
  assert (∃ w1, handleData (VStr command) (VObj kvs) socket w =
                broadcast (VStr command) (VObj kvs) None w1 ∧
                not_open w1 = not_open w ∧ sockets w1 = sockets w ∧
                sent w1 = sent w) as (w1 & -> & Ho & Hs & Hsent).
  { repeat (apply elem_of_cons in Hc as [->|Hc]);
      [rewrite handleData_line | rewrite handleData_dot
      | rewrite handleData_erase | rewrite handleData_clear | ];
      [by eexists ..|by apply elem_of_nil in Hc]. }
  rewrite broadcast_spec, Ho, Hs, Hopen, destinations_None, live_all_open.
  eexists. split; [done|].
  cbn [sent set_sent]. rewrite Hsent. split; [done|].
  apply elem_of_app. right. unfold deliveries.
  by apply (list_elem_of_fmap_2
              (fun t => (t, TextFrame (envelope (VStr command) (VObj kvs))))).
Qed.

Lemma C1_sender_receives_echo_witness :
  let w := MkWorld [7%nat] canvas0 ∅ [] [] [] 0 in
  lit "clear" ∈ [lit "line"; lit "dot"; lit "erase"; lit "clear"] ∧
  not_open w = ∅ ∧ 7%nat ∈ sockets w ∧
  ∃ w', handleData (VStr (lit "clear")) (VObj []) 7%nat w = (Normal tt, w') ∧
        (7%nat, TextFrame (envelope (VStr (lit "clear")) (VObj []))) ∈ sent w'.
Proof.
  intros w.
  assert (lit "clear" ∈ [lit "line"; lit "dot"; lit "erase"; lit "clear"])
    as H1 by (do 3 apply list_elem_of_further; apply list_elem_of_here).
  assert (7%nat ∈ sockets w) as H3 by apply list_elem_of_here.
  split_and!; [exact H1|reflexivity|exact H3|].
  destruct (C1_sender_receives_echo w 7%nat (lit "clear") [] H1 eq_refl H3)
    as (w' & Hw' & _ & Hin).
  exists w'. by split.
Defined.

(** C8. An envelope whose command is none of [join], [line], [dot],
    [erase], [clear] falls through the [switch]: [handleData] returns
    without an error and the whole state (registry, canvas, sent frames,
    waiting callbacks, saved boards) is as before. The same holds for the
    frame as it arrives on a socket whose [data] event has [handleData] as
    its one receiver. *)
Theorem C8_unknown_command_ignored command _data socket w
  (this : EventClass (Fn := server_fn)) o i frame :
  command ∉ [lit "join"; lit "line"; lit "dot"; lit "erase"; lit "clear"] →
  events this !! "data" = Some [Entry o (Plain HandleData) i] →
  decode frame = Normal (VStr command, _data) →
  handleData (VStr command) _data socket w = (Normal tt, w) ∧
  receive socket frame (this, w) = (Normal tt, (this, w)).
Proof.
  intros Hc Hev Hdec.
  assert (handleData (VStr command) _data socket w = (Normal tt, w)) as Hh.
  { apply handleData_other. intros label Hl [= ->]. by apply Hc. }
  split; [exact Hh|].
  unfold receive. rewrite on_message_decode, Hdec.
  rewrite (emitEvent_single _ _ _ _ _ _ _ _ Hev). cbn [call_server].
  by rewrite Hh.
Qed.

Lemma C8_unknown_command_ignored_witness :
  let this := on "data" HandleData "[unidentified]" (constructor ["data"]) in
  let frame := envelope (VStr (lit "ping")) VNull in
  (lit "ping" ∉ [lit "join"; lit "line"; lit "dot"; lit "erase";
                 lit "clear"]) ∧
  events this !! "data" = Some [Entry 0 (Plain HandleData) "[unidentified]"] ∧
  decode frame = Normal (VStr (lit "ping"), VNull) ∧
  receive 7%nat frame (this, startup 0) = (Normal tt, (this, startup 0)).
Proof.
  intros this frame.
  assert (lit "ping" ∉ [lit "join"; lit "line"; lit "dot"; lit "erase";
                        lit "clear"]) as H1.
  { intros H. repeat (apply elem_of_cons in H as [H|H]; [discriminate H|]).
    by apply elem_of_nil in H. }
  assert (events this !! "data" =
          Some [Entry 0 (Plain HandleData) "[unidentified]"]) as H2
    by (vm_compute; reflexivity).
  assert (decode frame = Normal (VStr (lit "ping"), VNull)) as H3
    by (vm_compute; reflexivity).
  split_and!; [exact H1|exact H2|exact H3|].
  exact (proj2 (C8_unknown_command_ignored (lit "ping") VNull 7%nat
                  (startup 0) this 0%nat "[unidentified]" frame H1 H2 H3)).
Defined.

(** ** Facts about [emitEvent] *)

Lemma apply_plain {Fn St} (call : Fn → list arg → M St unit) o args f σ :
  fn o = Plain f →
  apply call o args σ = ((call f args σ.2).1, (σ.1, (call f args σ.2).2)).
Proof.
  intros H. unfold apply. rewrite H. by destruct (call f args σ.2).
Qed.

(** Where every receiver of the event was registered with [on], an
    emission runs them all, in registration order. *)
Lemma emitEvent_plain {Fn St} (call : Fn → list arg → M St unit)
  event args this arr σ :
  events this !! event = Some arr →
  Forall (fun o => ∃ f, fn o = Plain f) arr →
  emitEvent call event args (this, σ) =
  each (fun o => apply call o args) arr (this, σ).
Proof.
  intros Hev Hplain. unfold emitEvent, bind, modify. cbn [fst snd].
  rewrite (ensure_declared _ _ _ Hev).
  assert (events_get event this = arr) as Hget
    by (unfold events_get; by rewrite Hev).
  rewrite forEach_each; cbn [fst]; rewrite Hget; [done|].
  intros o σ' Ho Hσ'.
  destruct (proj1 (Forall_forall _ _) Hplain o Ho) as [f Hf].
  by rewrite (apply_plain _ _ _ _ _ Hf).
Qed.

Lemma each_plain_calls args (fs : list nat) (this : EventClass) arr calls :
  fn <$> arr = Plain <$> fs →
  each (fun o => apply record_call o args) arr (this, calls) =
  (Normal tt, (this, calls ++ ((fun f => (f, args)) <$> fs))).
Proof.
  revert fs calls. induction arr as [|o arr IH]; intros fs calls Hfs.
  - destruct fs; [|done]. simpl. by rewrite app_nil_r.
  - destruct fs as [|f fs]; [done|]. injection Hfs as Hf Hfs.
    cbn [each]. unfold bind. rewrite (apply_plain _ _ _ _ _ Hf).
    cbn. rewrite (IH fs) by done. by rewrite <- app_assoc.
Qed.

Lemma emitEvent_declared {Fn St} (call : Fn → list arg → M St unit)
  event args this arr σ :
  events this !! event = Some arr →
  emitEvent call event args (this, σ) =
  forEach_from (fun σ => events_get event σ.1) (fun o => apply call o args)
               (length arr) 0 (this, σ).
Proof.
  intros Hev. unfold emitEvent, bind, modify, forEach. cbn [fst snd].
  rewrite (ensure_declared _ _ _ Hev). unfold events_get at 2.
  cbn [fst]. by rewrite Hev.
Qed.

Lemma forEach_from_visit {St A} (arr : St → list A) cb n k σ x :
  arr σ !! k = Some x →
  forEach_from arr cb (S n) k σ = (cb x ;;; forEach_from arr cb n (S k)) σ.
Proof. intros H. cbn [forEach_from]. by rewrite H. Qed.

Lemma forEach_from_pass {St A} (arr : St → list A) cb n k σ :
  arr σ !! k = None →
  forEach_from arr cb (S n) k σ = forEach_from arr cb n (S k) σ.
Proof. intros H. cbn [forEach_from]. by rewrite H. Qed.

Lemma apply_once {Fn St} (call : Fn → list arg → M St unit)
  o args f event arr this σ s :
  fn o = OnceWrapper f event →
  call f args σ = (Normal tt, s) →
  events this !! event = Some arr →
  apply call o args (this, σ) =
  (Normal tt,
   (set_events (insert event (array_remove arr (oid o))) this, s)).
Proof.
  intros Hfn Hcall Hev. unfold apply. rewrite Hfn. cbn [fst snd].
  by rewrite Hcall, Hev.
Qed.

Lemma events_get_lookup {Fn} event (this : EventClass (Fn := Fn)) arr :
  events this !! event = Some arr → events_get event this = arr.
Proof. intros H. unfold events_get. by rewrite H. Qed.

(** The first [n] visits of a [forEach] whose callbacks leave the array
    alone on those elements. *)
Lemma forEach_from_prefix {St A} (arr : St → list A) cb l n m :
  ∀ k σ, arr σ = l → (k + n ≤ length l)%nat →
    (∀ x σ', x ∈ take n (drop k l) → arr σ' = l → arr (cb x σ').2 = l) →
    forEach_from arr cb (n + m) k σ =
    (each cb (take n (drop k l)) ;;; forEach_from arr cb m (k + n)) σ.
Proof.
  induction n as [|n IH]; intros k σ Harr Hlen Hstable.
  - cbn [take each Nat.add]. unfold bind, ret. by rewrite Nat.add_0_r.
  - destruct (lookup_lt_is_Some_2 l k) as [x Hx]; [lia|].
    rewrite (drop_S _ _ _ Hx) in *. cbn [take each Nat.add] in *.
    rewrite forEach_from_visit with (x := x) by (by rewrite Harr).
    unfold bind at 1 2 3.
    pose proof (Hstable x σ (list_elem_of_here _ _) Harr) as Hx'.
    destruct (cb x σ) as [[[]|e] σ']; cbn [snd] in Hx'; [|done].
    rewrite IH; [|done|lia|].
    + by replace (S k + n)%nat with (k + S n)%nat by lia.
    + intros y σ'' Hy. apply Hstable. by apply list_elem_of_further.
Qed.

Lemma plain_receivers {Fn} (arr : list (entry (Fn := Fn))) fs :
  fn <$> arr = Plain <$> fs → Forall (fun o => ∃ g, fn o = Plain g) arr.
Proof.
  revert fs. induction arr as [|o arr IH]; intros fs H; [done|].
  destruct fs as [|g fs]; [done|]. injection H as Ho H.
  constructor; eauto.
Qed.

Lemma array_remove_last {Fn} (arr : list (entry (Fn := Fn))) w :
  Forall (fun o => oid o ≠ oid w) arr →
  array_remove (arr ++ [w]) (oid w) = arr.
Proof.
  induction 1 as [|o arr Ho _ IH]; cbn [app array_remove].
  - by rewrite decide_True.
  - by rewrite decide_False, IH.
Qed.

(** ** The claims on [EventClass] and [Socket] *)

(** C3 (the code departs from the claim). A receiver registered with [on]
    after a one-shot receiver is passed over by the emission that runs the
    one-shot: the wrapper splices itself out of the array while [forEach]
    is walking it, the follower moves down to the index just visited, and
    the next index is past the end. With [once(meow, 1)] then
    [on(meow, 2)], one emission calls receiver 1 only. *)
Theorem C3_receiver_after_one_shot_is_skipped :
  let this := on "meow" 2%nat "second"
                (once "meow" 1%nat "first" (constructor ["meow"])) in
  let args := [AVal (VStr (lit "purr"))] in
  let after := emitEvent record_call "meow" args (this, []) in
  fn <$> events_get "meow" this = [OnceWrapper 1%nat "meow"; Plain 2%nat] ∧
  after.1 = Normal tt ∧
  after.2.2 = [(1%nat, args)] ∧
  fn <$> events_get "meow" after.2.1 = [Plain 2%nat].
Proof. by vm_compute. Qed.

(** C6 (the code departs from the claim). Of two receivers registered with
    [once] on the same event, the second does not run on the first
    emission: it runs on the second one. Of four, the fourth has not run
    after two emissions and is still registered. *)
Theorem C6_one_shot_after_one_shot_misses_first_emission :
  let two := once "meow" 2%nat "b"
               (once "meow" 1%nat "a" (constructor ["meow"])) in
  let four := once "meow" 4%nat "d" (once "meow" 3%nat "c" two) in
  let emit := emitEvent record_call "meow" [] in
  (emit (two, [])).2.2 = [(1%nat, [])] ∧
  (emit (emit (two, [])).2).2.2 = [(1%nat, []); (2%nat, [])] ∧
  (emit (emit (four, [])).2).2.2 = [(1%nat, []); (3%nat, []); (2%nat, [])] ∧
  fn <$> events_get "meow" (emit (emit (four, [])).2).2.1 =
    [OnceWrapper 4%nat "meow"].
Proof. by vm_compute. Qed.

(** A one-shot receiver with no other one-shot before it does as the
    claim says: registered on an event whose receivers all come from [on],
    it runs on the first emission, after them, and is gone for the
    second. *)
Lemma once_after_plain_fires_once (this : EventClass) event f i args
  arr fs calls :
  events this !! event = Some arr →
  fn <$> arr = Plain <$> fs →
  Forall (fun o => oid o ≠ next_oid this) arr →
  let emit := emitEvent record_call event args in
  let first := emit (once event f i this, calls) in
  first.2.2 = calls ++ ((fun g => (g, args)) <$> fs) ++ [(f, args)] ∧
  events_get event first.2.1 = arr ∧
  (emit first.2).2.2 = first.2.2 ++ ((fun g => (g, args)) <$> fs).
Proof.
  intros Hev Hfs Hoid emit first.
  set (w := Entry (next_oid this) (OnceWrapper f event) i).
  set (registered := MkEventClass
         (alter (fun arr => arr ++ [w]) event (events this))
         (S (next_oid this)) (console this)).
  set (fired := set_events (insert event arr) registered).
  set (calls' := calls ++ ((fun g => (g, args)) <$> fs)).
  assert (events registered !! event = Some (arr ++ [w])) as Hw
    by (cbn [events registered]; by rewrite lookup_alter_eq, Hev).
  assert (events fired !! event = Some arr) as Hfired
    by (cbn [events fired set_events]; by rewrite lookup_insert_eq).
  pose proof (plain_receivers _ _ Hfs) as Hplain.
  assert (first = (Normal tt, (fired, calls' ++ [(f, args)]))) as ->.
  { subst first emit. unfold once. rewrite (ensure_declared _ _ _ Hev).
    change (push event _ _) with registered.
    rewrite (emitEvent_declared _ _ _ _ _ _ Hw).
    rewrite length_app. cbn [length].
    rewrite (forEach_from_prefix _ _ (arr ++ [w]));
      [|cbn [fst]; by apply events_get_lookup|rewrite length_app; lia|].
    - cbn [Nat.add]. rewrite drop_0, take_app_length. unfold bind at 1.
      rewrite (each_plain_calls _ fs) by done. fold calls'.
      rewrite (forEach_from_visit _ _ _ _ _ w).
      + unfold bind.
        rewrite (apply_once _ w args f event (arr ++ [w]) registered calls'
                            (calls' ++ [(f, args)])) by done.
        cbn [forEach_from ret]. by rewrite (array_remove_last arr w).
      + cbn [fst]. rewrite (events_get_lookup _ _ _ Hw).
        by rewrite lookup_app_r, Nat.sub_diag.
    - rewrite drop_0, take_app_length. intros x σ' Hx Hσ'.
      destruct (proj1 (Forall_forall _ _) Hplain x Hx) as [g Hg].
      by rewrite (apply_plain _ _ _ _ _ Hg). }
  cbn [fst snd]. split; [subst calls'; by rewrite <- app_assoc|].
  split; [by apply events_get_lookup|].
  subst emit. rewrite (emitEvent_plain _ _ _ _ _ _ Hfired Hplain).
  by rewrite (each_plain_calls _ fs).
Qed.

(** C7, the claim as stated fails: the frame [{}] is valid JSON without a
    [command] field; nothing throws, and the [data] event is dispatched,
    with [undefined] for the command and for the data. *)
Lemma C7_counterexample :
  let this := on "data" 1%nat "receiver" (constructor ["data"]) in
  let after := on_message record_call 0 (lit "{}") (this, []) in
  JSON.parse (lit "{}") = Some (VObj []) ∧
  after.1 = Normal tt ∧
  after.2.2 = [(1%nat, [AVal VUndefined; AVal VUndefined; ASocket 0])].
Proof. by vm_compute. Qed.

(** C7, amended. A frame that is not valid JSON makes [JSON.parse] throw,
    and the frame [null] makes the read of [.command] throw; either
    failure reaches the caller with the state as it was, no receiver having
    run. Every other frame is dispatched to the [data] event, whether it
    has a [command] field or not, with [undefined] for a field it lacks. *)
Theorem C7_inbound_parse {Fn St} (call : Fn → list arg → M St unit)
  this frame σ :
  on_message call this frame σ =
  match JSON.parse frame with
  | None => (Throw SyntaxError, σ)
  | Some (VUndefined | VNull) => (Throw TypeError, σ)
  | Some (VObj kvs) =>
    emitEvent call "data" [AVal (obj_get kvs (lit "command"));
                           AVal (obj_get kvs (lit "data")); ASocket this] σ
  | Some _ =>
    emitEvent call "data" [AVal VUndefined; AVal VUndefined; ASocket this] σ
  end.
Proof.
  unfold on_message. by destruct (JSON.parse frame) as [[]|].
Qed.

(** ** Facts about [JSON.stringify] and [JSON.parse] *)


(** ** Round trip of string literals *)

Lemma parse_string_literal c r :
  32 ≤ c → c ≠ dquote → c ≠ backslash →
  JSON.parse_string (c :: r) = JSON.cons_char c (JSON.parse_string r).
Proof.
  intros Hc Hq Hb. cbn [JSON.parse_string].
  rewrite (proj2 (N.eqb_neq c dquote) Hq), (proj2 (N.eqb_neq c backslash) Hb).
  by rewrite (proj2 (N.ltb_ge c 32) Hc).
Qed.

Lemma parse_string_escape c r :
  JSON.parse_string (JSON.escape c ++ r) =
  JSON.cons_char c (JSON.parse_string r).
Proof.
  destruct (decide (c < 32)) as [Hlt|Hge].
  - destruct c as [|p]; [reflexivity|].
    do 5 (try destruct p as [p|p|]); try (exfalso; lia); reflexivity.
  - destruct (decide (c = dquote)) as [->|Hq]; [reflexivity|].
    destruct (decide (c = backslash)) as [->|Hb]; [reflexivity|].
    unfold JSON.escape.
    rewrite (proj2 (N.eqb_neq c dquote) Hq), (proj2 (N.eqb_neq c backslash) Hb).
    rewrite !(proj2 (N.eqb_neq c _)) by lia.
    rewrite (proj2 (N.ltb_ge c 32)) by lia.
    apply parse_string_literal; [lia|done..].
Qed.

Lemma parse_string_quote s r :
  JSON.parse_string (concat (JSON.escape <$> s) ++ dquote :: r) = Some (s, r).
Proof.
  induction s as [|c s IH]; [reflexivity|].
  rewrite fmap_cons. cbn [concat]. rewrite <- app_assoc.
  by rewrite parse_string_escape, IH.
Qed.


(** ** Round trip of numbers *)

Lemma char_digit_char d : char_digit (digit_char d) = Some d.
Proof. by destruct d. Qed.

Lemma digit_char_not c d :
  char_digit c = None → digit_char d ≠ c.
Proof. intros H <-. by rewrite char_digit_char in H. Qed.

Lemma span_digits_app ds s :
  JSON.span_digits (digits_text ds ++ s) =
  (ds ++ (JSON.span_digits s).1, (JSON.span_digits s).2).
Proof.
  induction ds as [|d ds IH]; [simpl; by destruct (JSON.span_digits s)|].
  cbn [digits_text fmap list_fmap app JSON.span_digits].
  rewrite char_digit_char. fold (digits_text ds). by rewrite IH.
Qed.


Lemma span_digits_stop s : no_digit s → JSON.span_digits s = ([], s).
Proof. destruct s as [|c s]; [done|]. simpl. by intros ->. Qed.

Lemma span_digits_all ds s :
  no_digit s → JSON.span_digits (digits_text ds ++ s) = (ds, s).
Proof.
  intros H. by rewrite span_digits_app, span_digits_stop, app_nil_r.
Qed.

Lemma zeros_digits n : zeros n = digits_text (replicate n d0).
Proof. unfold zeros, digits_text. by rewrite fmap_replicate. Qed.

Lemma digits_uint_digits u : digits_uint (uint_digits u) = u.
Proof. induction u; simpl; by f_equal. Qed.

Lemma digits_N_digits m : digits_N (N_digits m) = m.
Proof.
  unfold digits_N, N_digits. rewrite digits_uint_digits.
  apply DecimalN.Unsigned.of_to.
Qed.

Lemma N_digits_nonempty m : N_digits m ≠ [].
Proof.
  unfold N_digits. destruct (N.to_uint m) eqn:H; try done.
  pose proof (DecimalN.Unsigned.of_to m) as Hm. rewrite H in Hm.
  by subst m.
Qed.

Lemma strip_leading_zeros a ds :
  head ds ≠ Some d0 → strip_leading (replicate a d0 ++ ds) = (a, ds).
Proof.
  intros H. induction a as [|a IH].
  - destruct ds as [|[] ds]; done.
  - simpl. by rewrite IH.
Qed.

Lemma strip_leading_none ds : head ds ≠ Some d0 → strip_leading ds = (0%nat, ds).
Proof. apply (strip_leading_zeros 0). Qed.

Lemma strip_trailing_zeros m ds :
  last ds ≠ Some d0 → strip_trailing (ds ++ replicate m d0) = ds.
Proof.
  intros H. unfold strip_trailing.
  rewrite reverse_app, reverse_replicate, strip_leading_zeros.
  - apply reverse_involutive.
  - by rewrite head_reverse.
Qed.

Lemma strip_trailing_none ds : last ds ≠ Some d0 → strip_trailing ds = ds.
Proof.
  intros H. rewrite <- (app_nil_r ds) at 1. by apply (strip_trailing_zeros 0).
Qed.

(** A digit string without a leading and a trailing zero is the number. *)
Lemma mk_number_padded neg a m d ds p :
  d ≠ d0 → last (d :: ds) ≠ Some d0 →
  mk_number neg (replicate a d0 ++ (d :: ds) ++ replicate m d0) p =
  Finite neg (d :: ds) (p - Z.of_nat a).
Proof.
  intros Hd Hl. unfold mk_number.
  rewrite strip_leading_zeros by (simpl; congruence).
  rewrite strip_trailing_zeros by done. done.
Qed.

Lemma mk_number_trailing neg m d ds p :
  d ≠ d0 → last (d :: ds) ≠ Some d0 →
  mk_number neg ((d :: ds) ++ replicate m d0) p = Finite neg (d :: ds) p.
Proof.
  intros Hd Hl. etrans; [apply (mk_number_padded neg 0 m d ds p Hd Hl)|].
  f_equal. lia.
Qed.

Lemma mk_number_exact neg d ds p :
  d ≠ d0 → last (d :: ds) ≠ Some d0 →
  mk_number neg (d :: ds) p = Finite neg (d :: ds) p.
Proof.
  intros Hd Hl. rewrite <- (mk_number_trailing neg 0 d ds p Hd Hl).
  by rewrite app_nil_r.
Qed.

Lemma mk_number_leading neg a d ds p :
  d ≠ d0 → last (d :: ds) ≠ Some d0 →
  mk_number neg (replicate a d0 ++ d :: ds) p =
  Finite neg (d :: ds) (p - Z.of_nat a).
Proof.
  intros Hd Hl. etrans; [|apply (mk_number_padded neg a 0 d ds p Hd Hl)].
  by rewrite app_nil_r.
Qed.



Lemma terminated_no_digit s : terminated s → no_digit s.
Proof. destruct s; [done|]. by intros [? _]. Qed.

Lemma parse_frac_stop s : terminated s → JSON.parse_frac s = Some ([], s).
Proof.
  destruct s as [|c s]; [done|]. intros (_ & H & _). unfold JSON.parse_frac.
  by rewrite (proj2 (N.eqb_neq c 46) H).
Qed.

Lemma parse_exp_stop s : terminated s → JSON.parse_exp s = Some (0%Z, s).
Proof.
  destruct s as [|c s]; [done|]. intros (_ & _ & H1 & H2).
  unfold JSON.parse_exp.
  by rewrite (proj2 (N.eqb_neq c 101) H1), (proj2 (N.eqb_neq c 69) H2).
Qed.

Lemma parse_frac_dot fp s :
  fp ≠ [] → no_digit s →
  JSON.parse_frac (46 :: digits_text fp ++ s) = Some (fp, s).
Proof.
  intros Hfp Hs. unfold JSON.parse_frac. cbn [N.eqb Pos.eqb].
  rewrite span_digits_all by done. by destruct fp.
Qed.

Lemma parse_exp_e (e : Z) s :
  no_digit s →
  JSON.parse_exp (101 :: (if (e <? 0)%Z then 45 else 43) ::
                  digits_text (N_digits (Z.abs_N e)) ++ s) = Some (e, s).
Proof.
  intros Hs. unfold JSON.parse_exp. cbn [N.eqb Pos.eqb orb].
  assert (JSON.parse_sign ((if (e <? 0)%Z then 45 else 43) ::
             digits_text (N_digits (Z.abs_N e)) ++ s) =
          ((e <? 0)%Z, digits_text (N_digits (Z.abs_N e)) ++ s)) as ->.
  { by destruct (e <? 0)%Z. }
  rewrite span_digits_all by done.
  pose proof (N_digits_nonempty (Z.abs_N e)) as Hne.
  destruct (N_digits (Z.abs_N e)) as [|x xs] eqn:Hd; [done|].
  rewrite <- Hd, digits_N_digits. do 2 f_equal.
  destruct (Z.ltb_spec e 0); lia.
Qed.

Lemma parse_frac_e s : JSON.parse_frac (101 :: s) = Some ([], 101 :: s).
Proof. reflexivity. Qed.

Lemma e_not_digit s : no_digit (101 :: s).
Proof. done. Qed.

Lemma dot_not_digit s : no_digit (46 :: s).
Proof. done. Qed.

Lemma int_part_accepted {A} d ds (x : option A) :
  d ≠ d0 →
  match d :: ds with [] | d0 :: _ :: _ => None | _ => x end = x.
Proof. by destruct d. Qed.

Lemma single_digit_accepted {A} d (x : option A) :
  match [d] with [] | d0 :: _ :: _ => None | _ => x end = x.
Proof. by destruct d. Qed.

Lemma parse_unsigned_positive neg d ds n rest :
  d ≠ d0 → last (d :: ds) ≠ Some d0 → terminated rest →
  JSON.parse_unsigned neg (JSON.positive_toString (d :: ds) n ++ rest) =
  Some (Finite neg (d :: ds) n, rest).
Proof.
  intros Hd Hl Hrest. pose proof (terminated_no_digit _ Hrest) as Hnd.
  unfold JSON.positive_toString.
  set (k := Z.of_nat (length (d :: ds))).
  destruct ((k <=? n)%Z && (n <=? 21)%Z) eqn:HA.
  { (* digits, then zeros *)
    apply andb_true_iff in HA as [HA1%Z.leb_le HA2%Z.leb_le].
    rewrite zeros_digits. unfold digits_text. rewrite <- fmap_app.
    fold (digits_text ((d :: ds) ++ replicate (Z.to_nat (n - k)) d0)).
    unfold JSON.parse_unsigned. rewrite span_digits_all by done.
    rewrite parse_frac_stop by done. cbn [mbind option_bind].
    rewrite parse_exp_stop by done. cbn [mbind option_bind].
    rewrite app_nil_r, mk_number_trailing by done.
    cbn [app]. rewrite int_part_accepted by done. do 3 f_equal.
    change (d :: ds ++ ?x) with ((d :: ds) ++ x).
    rewrite length_app, length_replicate. subst k. lia. }
  destruct ((0 <? n)%Z && (n <=? 21)%Z) eqn:HB.
  { (* digits around a decimal point *)
    apply andb_true_iff in HB as [HB1%Z.ltb_lt HB2%Z.leb_le].
    apply andb_false_iff in HA as [HA%Z.leb_gt|HA%Z.leb_gt]; [|lia].
    rewrite <- !app_assoc. cbn [app].
    unfold JSON.parse_unsigned. rewrite span_digits_all by apply dot_not_digit.
    assert (drop (Z.to_nat n) (d :: ds) ≠ []) as Hdrop.
    { intros H%(f_equal length). rewrite length_drop in H.
      simpl in H. subst k. simpl in HA. lia. }
    rewrite parse_frac_dot by done. cbn [mbind option_bind].
    rewrite parse_exp_stop by done. cbn [mbind option_bind].
    rewrite take_drop, length_take, mk_number_exact by done.
    destruct (Z.to_nat n) as [|m] eqn:Hm; [lia|].
    cbn [take]. rewrite int_part_accepted by done. do 3 f_equal.
    subst k. simpl in *. lia. }
  destruct ((-6 <? n)%Z && (n <=? 0)%Z) eqn:HC.
  { (* a leading zero and a decimal point *)
    apply andb_true_iff in HC as [HC1%Z.ltb_lt HC2%Z.leb_le].
    rewrite zeros_digits. cbn [app]. rewrite <- app_assoc.
    unfold digits_text at 1 2. rewrite app_assoc, <- fmap_app.
    fold (digits_text (replicate (Z.to_nat (- n)) d0 ++ d :: ds)).
    unfold JSON.parse_unsigned.
    change (48 :: 46 :: ?s) with (digits_text [d0] ++ 46 :: s).
    rewrite span_digits_all by apply dot_not_digit.
    rewrite parse_frac_dot; [|by destruct (Z.to_nat (- n))|done].
    cbn [mbind option_bind]. rewrite parse_exp_stop by done.
    cbn [mbind option_bind].
    change ([d0] ++ ?x ++ ?y) with (replicate 1 d0 ++ x ++ y).
    rewrite app_assoc, <- replicate_add, mk_number_leading by done.
    do 3 f_equal. simpl. lia. }
  (* the exponent form *)
  assert (n - 1 + 1 = n)%Z as He by lia.
  destruct ds as [|d' ds].
  - cbn [app]. change (digit_char d :: ?s) with (digits_text [d] ++ s).
    unfold JSON.parse_unsigned.
    rewrite span_digits_all by apply e_not_digit.
    rewrite single_digit_accepted, parse_frac_e. cbn [mbind option_bind].
    rewrite parse_exp_e by done. cbn [mbind option_bind].
    rewrite app_nil_r, mk_number_exact by done.
    cbn [length]. do 3 f_equal. lia.
  - cbn [app]. rewrite <- app_assoc. cbn [app].
    change (digit_char d :: 46 :: ?s) with (digits_text [d] ++ 46 :: s).
    unfold JSON.parse_unsigned.
    rewrite span_digits_all by apply dot_not_digit.
    rewrite single_digit_accepted.
    rewrite parse_frac_dot; [|done|apply e_not_digit].
    cbn [mbind option_bind].
    rewrite parse_exp_e by done. cbn [mbind option_bind].
    cbn [app]. rewrite mk_number_exact by done.
    cbn [length]. do 3 f_equal. lia.
Qed.


Lemma positive_toString_head d ds n :
  ∃ d' t, JSON.positive_toString (d :: ds) n = digit_char d' :: t.
Proof.
  unfold JSON.positive_toString.
  destruct ((_ <=? n)%Z && _); [by exists d; eexists|].
  destruct ((0 <? n)%Z && _) eqn:HB.
  { apply andb_true_iff in HB as [HB%Z.ltb_lt _].
    destruct (Z.to_nat n) eqn:Hn; [lia|]. by exists d; eexists. }
  destruct ((-6 <? n)%Z && _); [by exists d0; eexists|].
  destruct ds; by exists d; eexists.
Qed.

Lemma digit_char_not_minus d : (digit_char d =? 45) = false.
Proof. by destruct d. Qed.

Lemma parse_number_ser neg ds n rest :
  canonical ds n → Finite neg ds n ≠ neg_zero → terminated rest →
  JSON.parse_number (JSON.ser_number (Finite neg ds n) ++ rest) =
  Some (Finite neg ds n, rest).
Proof.
  intros Hc Hz Hrest. destruct ds as [|d ds].
  - simpl in Hc. subst n. destruct neg; [done|].
    cbn [JSON.ser_number]. change (lit "0") with (digits_text [d0]).
    unfold JSON.parse_number. cbn [app digits_text fmap list_fmap].
    change (digit_char d0 =? 45) with false. cbv iota.
    change (digit_char d0 :: rest) with (digits_text [d0] ++ rest).
    unfold JSON.parse_unsigned.
    rewrite span_digits_all by by apply terminated_no_digit.
    rewrite parse_frac_stop by done. cbn [mbind option_bind].
    by rewrite parse_exp_stop by done.
  - destruct Hc as [Hd Hl]. cbn [JSON.ser_number]. destruct neg.
    + cbn [app]. unfold JSON.parse_number.
      change (45 =? 45) with true. cbv iota.
      by apply parse_unsigned_positive.
    + cbn [app]. rewrite <- (parse_unsigned_positive false d ds n rest) by done.
      destruct (positive_toString_head d ds n) as (d' & t & ->).
      cbn [app]. unfold JSON.parse_number.
      by rewrite digit_char_not_minus.
Qed.

(** ** Round trip of payloads *)


Lemma join_commas_cons t ts :
  JSON.join_commas (t :: ts) = t ++ concat ((fun u => 44 :: u) <$> ts).
Proof.
  revert t. induction ts as [|u ts IH]; intros t.
  - simpl. by rewrite app_nil_r.
  - change (JSON.join_commas (t :: u :: ts))
      with (t ++ 44 :: JSON.join_commas (u :: ts)).
    by rewrite IH.
Qed.

Lemma ser_payload v : payload v → JSON.ser v = Some (text_of v).
Proof. by intros []. Qed.

Lemma ser_payloads l :
  Forall payload l →
  (fun e => default (lit "null") (JSON.ser e)) <$> l = text_of <$> l.
Proof.
  intros H. apply list_fmap_ext. intros i e Hi.
  unfold text_of. rewrite (ser_payload e); [done|].
  by apply (proj1 (Forall_lookup _ _) H i).
Qed.

Lemma text_of_array l :
  Forall payload l →
  text_of (VArr l) = 91 :: JSON.join_commas (text_of <$> l) ++ [93].
Proof. intros H. unfold text_of at 1. cbn [JSON.ser default from_option Datatypes.id]. by rewrite ser_payloads. Qed.

Lemma payload_head v :
  payload v → ∃ c t, text_of v = c :: t ∧ starts v c.
Proof.
  intros [neg ds n Hc Hz|s|l Hl].
  - unfold text_of. cbn [JSON.ser default from_option Datatypes.id].
    destruct ds as [|d ds].
    + simpl in Hc. subst. destruct neg; [done|].
      exists 48, []. split; [done|]. apply (starts_digit [] 0%Z d0).
    + cbn [JSON.ser_number]. destruct neg.
      * eexists _, _. split; [done|]. constructor.
      * destruct (positive_toString_head d ds n) as (d' & t & ->).
        eexists _, _. split; [done|]. constructor.
  - eexists _, _. split; [done|]. constructor.
  - rewrite text_of_array by done. eexists _, _. split; [done|]. constructor.
Qed.

Lemma starts_skip_ws v c t : starts v c → JSON.skip_ws (c :: t) = c :: t.
Proof. intros []; try done. by destruct d. Qed.

Lemma starts_not_close v c t : starts v c → JSON.next_is 93 (c :: t) = None.
Proof.
  intros H. unfold JSON.next_is. rewrite (starts_skip_ws _ _ _ H).
  destruct H; try done. by destruct d.
Qed.

Lemma payload_nonempty v : payload v → (1 ≤ length (text_of v))%nat.
Proof. intros (c & t & -> & _)%payload_head. simpl. lia. Qed.

(** What comes after a value inside an array or an envelope. *)
Lemma comma_terminated s : terminated (44 :: s).
Proof. done. Qed.
Lemma bracket_terminated s : terminated (93 :: s).
Proof. done. Qed.
Lemma brace_terminated s : terminated (125 :: s).
Proof. done. Qed.

Lemma parse_value_number f neg ds n rest :
  canonical ds n → Finite neg ds n ≠ neg_zero → terminated rest →
  JSON.parse_value (S f) (text_of (VNum (Finite neg ds n)) ++ rest) =
  Some (VNum (Finite neg ds n), rest).
Proof.
  intros Hc Hz Hrest.
  pose proof (parse_number_ser neg ds n rest Hc Hz Hrest) as Hp.
  destruct (payload_head (VNum (Finite neg ds n))) as (c & t & Ht & Hs);
    [by constructor|].
  change (text_of (VNum (Finite neg ds n)))
    with (JSON.ser_number (Finite neg ds n)) in *.
  rewrite Ht in *. cbn [app] in *. cbn [JSON.parse_value].
  rewrite (starts_skip_ws _ _ _ Hs).
  inversion Hs; subst.
  - change (JSON.parse_number (45 :: t ++ rest)) with
      (JSON.parse_unsigned true (t ++ rest)) in Hp.
    cbn. by rewrite Hp.
  - destruct d; cbn; cbn in Hp; by rewrite Hp.
Qed.

Lemma parse_value_string f s rest :
  JSON.parse_value (S f) (text_of (VStr s) ++ rest) = Some (VStr s, rest).
Proof.
  unfold text_of. cbn [JSON.ser default from_option Datatypes.id].
  unfold JSON.quote. cbn [app JSON.parse_value JSON.skip_ws].
  change (JSON.is_ws dquote) with false. cbv iota.
  change (dquote =? 123) with false. change (dquote =? 91) with false.
  change (dquote =? dquote) with true. cbv iota.
  rewrite <- app_assoc. cbn [app].
  by rewrite parse_string_quote.
Qed.


Lemma tail_length_elem (t : list N) (ts : list (list N)) :
  t ∈ ts → (length t < length (concat ((fun u => 44%N :: u) <$> ts)))%nat.
Proof.
  induction ts as [|u ts IH]; [by intros ?%elem_of_nil|].
  rewrite fmap_cons. cbn [concat]. rewrite length_app. cbn [length].
  intros [->|H]%elem_of_cons; [lia|]. specialize (IH H). lia.
Qed.

Lemma tail_length_count (ts : list (list N)) :
  (length ts ≤ length (concat ((fun u => 44%N :: u) <$> ts)))%nat.
Proof.
  induction ts as [|u ts IH]; [done|].
  rewrite fmap_cons. cbn [concat]. rewrite length_app. cbn [length]. lia.
Qed.

Lemma tail_terminated ts rest :
  terminated (concat ((fun u => 44 :: u) <$> ts) ++ 93 :: rest).
Proof. by destruct ts. Qed.

Lemma parse_elems_payload pv rest l :
  ∀ acc g,
    (∀ e, e ∈ l → ∀ r, terminated r → pv (text_of e ++ r) = Some (e, r)) →
    (length l < g)%nat →
    JSON.parse_elems pv g acc
      (concat ((fun u => 44 :: u) <$> (text_of <$> l)) ++ 93 :: rest) =
    Some (reverse acc ++ l, rest).
Proof.
  induction l as [|e l IH]; intros acc g Hpv Hg.
  - destruct g as [|g]; [simpl in Hg; lia|]. by rewrite app_nil_r.
  - destruct g as [|g]; [simpl in Hg; lia|].
    rewrite !fmap_cons. cbn [concat app]. rewrite <- app_assoc.
    cbn [JSON.parse_elems JSON.skip_ws].
    change (JSON.is_ws 44) with false. cbv iota.
    change (44 =? 93) with false. change (44 =? 44) with true. cbv iota.
    rewrite Hpv; [|apply list_elem_of_here|apply tail_terminated].
    cbn [mbind option_bind].
    rewrite IH; [|intros e' He'; apply Hpv; by apply list_elem_of_further
                 |simpl in Hg; lia].
    by rewrite reverse_cons, <- app_assoc.
Qed.

Lemma payload_not_close e s :
  payload e → JSON.next_is 93 (text_of e ++ s) = None.
Proof.
  intros (c & t & -> & Hs)%payload_head. by apply (starts_not_close e).
Qed.

Lemma parse_value_payload fuel :
  ∀ v rest,
    payload v → (length (text_of v) ≤ fuel)%nat → terminated rest →
    JSON.parse_value fuel (text_of v ++ rest) = Some (v, rest).
Proof.
  induction fuel as [|f IH]; intros v rest Hv Hlen Hrest.
  { pose proof (payload_nonempty v Hv). lia. }
  destruct Hv as [neg ds n Hc Hz|s|l Hl].
  - by apply parse_value_number.
  - apply parse_value_string.
  - rewrite text_of_array in * by done.
    cbn [app JSON.parse_value JSON.skip_ws].
    change (JSON.is_ws 91) with false. cbv iota.
    change (91 =? 123) with false. change (91 =? 91) with true. cbv iota.
    destruct l as [|e l].
    + reflexivity.
    + rewrite fmap_cons, join_commas_cons in *. rewrite <- !app_assoc.
      cbn [length] in Hlen. rewrite !length_app in Hlen. cbn [length] in Hlen.
      apply Forall_cons in Hl as [He Hl].
      change ([93] ++ rest) with (93 :: rest).
      rewrite payload_not_close by done.
      rewrite IH; [|done|lia|apply tail_terminated].
      cbn [mbind option_bind].
      pose proof (tail_length_count (text_of <$> l)) as Hcount.
      rewrite length_fmap in Hcount.
      rewrite parse_elems_payload; [done| |lia].
      intros e' He' r Hr. apply IH; [|  |done].
      * by apply (proj1 (Forall_forall _ _) Hl).
      * pose proof (tail_length_elem (text_of e') (text_of <$> l)
                      (list_elem_of_fmap_2 _ _ _ He')). lia.
Qed.


(** ** Round trip of envelopes *)

Lemma envelope_text c p :
  payload p →
  envelope (VStr c) p =
  123 :: JSON.quote (lit "command") ++ 58 :: JSON.quote c ++
  44 :: JSON.quote (lit "data") ++ 58 :: text_of p ++ [125].
Proof.
  intros Hp. unfold envelope, JSON.stringify.
  cbn [JSON.ser omap list_omap fst snd fmap option_fmap option_map].
  rewrite (ser_payload p Hp).
  cbn [JSON.ser omap list_omap fst snd fmap option_fmap option_map
       JSON.join_commas default from_option Datatypes.id].
  by rewrite <- !app_assoc.
Qed.

Lemma parse_member_quote pv k s :
  JSON.parse_member pv (JSON.quote k ++ 58 :: s) =
  pv s ≫= λ '(v, r), Some (k, v, r).
Proof.
  unfold JSON.parse_member, JSON.quote. cbn [app JSON.skip_ws].
  change (JSON.is_ws dquote) with false. cbv iota.
  change (dquote =? dquote) with true. cbv iota.
  rewrite <- app_assoc. cbn [app]. rewrite parse_string_quote.
  cbn [mbind option_bind JSON.skip_ws].
  change (JSON.is_ws 58) with false. cbv iota.
  by change (58 =? 58) with true.
Qed.

Lemma next_is_quote c k s : c ≠ dquote → JSON.next_is c (JSON.quote k ++ s) = None.
Proof.
  intros Hc. unfold JSON.next_is, JSON.quote. cbn [app JSON.skip_ws].
  change (JSON.is_ws dquote) with false. cbv iota.
  by rewrite (proj2 (N.eqb_neq dquote c)).
Qed.

Lemma parse_value_object F s :
  JSON.parse_value (S F) (123 :: s) =
  match JSON.next_is 125 s with
  | Some r1 => Some (VObj [], r1)
  | None =>
    JSON.parse_member (JSON.parse_value F) s ≫= λ '(k, v, r1),
    JSON.parse_members (JSON.parse_value F) F [(k, v)] r1 ≫= λ '(kvs, r2),
    Some (VObj kvs, r2)
  end.
Proof. reflexivity. Qed.

Lemma parse_members_comma pv g acc s :
  JSON.parse_members pv (S g) acc (44 :: s) =
  JSON.parse_member pv s ≫= λ '(k, v, r1),
  JSON.parse_members pv g (JSON.obj_set k v acc) r1.
Proof. reflexivity. Qed.

Lemma parse_members_end pv g acc r :
  JSON.parse_members pv (S g) acc (125 :: r) = Some (acc, r).
Proof. reflexivity. Qed.

Lemma parse_value_envelope F c p :
  payload p → (length (text_of p) + 3 ≤ F)%nat →
  JSON.parse_value (S F) (envelope (VStr c) p) =
  Some (VObj [(lit "command", VStr c); (lit "data", p)], []).
Proof.
  intros Hp HF. rewrite envelope_text by done.
  destruct F as [|[|[|F]]]; [lia..|].
  rewrite parse_value_object, next_is_quote by done.
  rewrite parse_member_quote.
  change (JSON.quote c) with (text_of (VStr c)).
  rewrite parse_value_string. cbn [mbind option_bind].
  rewrite parse_members_comma, parse_member_quote.
  rewrite parse_value_payload; [|done|lia|done].
  cbn [mbind option_bind]. by rewrite parse_members_end.
Qed.

Lemma envelope_length c p :
  payload p → (length (text_of p) + 3 ≤ length (envelope (VStr c) p))%nat.
Proof.
  intros Hp. rewrite envelope_text by done.
  cbn [length]. repeat (rewrite !length_app; cbn [length]). lia.
Qed.

Lemma decode_envelope c p :
  payload p → decode (envelope (VStr c) p) = Normal (VStr c, p).
Proof.
  intros Hp. unfold decode, JSON.parse.
  rewrite parse_value_envelope by (by try apply envelope_length).
  reflexivity.
Qed.

(** ** The claim on the envelope round trip *)

(** C9, the claim as stated fails: [NaN] is a number, [JSON.stringify]
    writes it [null], and the payload read back is [null]; likewise an
    infinity; negative zero is written [0] and read back as zero. *)
Lemma C9_counterexample :
  decode (envelope (VStr (lit "dot")) (VNum NaN)) =
    Normal (VStr (lit "dot"), VNull) ∧
  decode (envelope (VStr (lit "dot")) (VNum NaN)) ≠
    Normal (VStr (lit "dot"), VNum NaN) ∧
  decode (envelope (VStr (lit "dot")) (VArr [VNum (Infinity false)])) =
    Normal (VStr (lit "dot"), VArr [VNull]) ∧
  decode (envelope (VStr (lit "dot")) (VNum neg_zero)) =
    Normal (VStr (lit "dot"), VNum (Finite false [] 0)).
Proof.
  assert (decode (envelope (VStr (lit "dot")) (VNum NaN)) =
          Normal (VStr (lit "dot"), VNull)) as H by (by vm_compute).
  split_and!; [exact H|by rewrite H|by vm_compute..].
Qed.

(** C9, amended. For every command string and every payload built from
    nested arrays, strings and finite numbers other than negative zero,
    the text that [write] sends for [(command, payload)] is read back by
    the inbound path as that same pair: [decode] returns it, and the
    message handler dispatches the [data] event with it. *)
Theorem C9_envelope_round_trip {Fn St} (call : Fn → list arg → M St unit)
  command p socket this w σ :
  payload p →
  (write socket (VStr command) p w).2 =
    (if decide (socket ∈ not_open w) then w
     else set_sent
            (fun l => l ++ [(socket, TextFrame (envelope (VStr command) p))])
            w) ∧
  decode (envelope (VStr command) p) = Normal (VStr command, p) ∧
  on_message call this (envelope (VStr command) p) σ =
    emitEvent call "data" [AVal (VStr command); AVal p; ASocket this] σ.
Proof.
  intros Hp. split_and!.
  - unfold write, ws_send. by destruct (decide (socket ∈ not_open w)).
  - by apply decode_envelope.
  - by rewrite on_message_decode, decode_envelope.
Qed.

Lemma C9_envelope_round_trip_witness :
  let p := VArr [VNum (Finite false [d1; d2] 2);
                 VStr (lit "#ff0000");
                 VArr [VNum (Finite true [d2; d5] 0); VArr []]] in
  payload p ∧
  decode (envelope (VStr (lit "line")) p) = Normal (VStr (lit "line"), p).
Proof.
  intros p.
  assert (payload p) as Hp.
  { apply payload_array. repeat apply Forall_cons_2.
    - apply payload_number; [split|]; discriminate.
    - apply payload_string.
    - apply payload_array. repeat apply Forall_cons_2.
      + apply payload_number; [split|]; discriminate.
      + apply payload_array. apply Forall_nil_2.
      + apply Forall_nil_2.
    - apply Forall_nil_2. }
  split; [exact Hp|].
  exact (proj1 (proj2 (C9_envelope_round_trip
                         record_call (lit "line") p 0%nat 0%nat
                         (startup 0) (constructor [], []) Hp))).
Defined.

(** * Further properties of the code *)

(** ** More on [EventClass] *)

Lemma events_get_ensure {Fn} (this : EventClass (Fn := Fn)) event e :
  events_get e (ensure event this) = events_get e this.
Proof.
  unfold ensure, events_get. destruct (events this !! event) eqn:H; [done|].
  cbn [events set_events warn]. destruct (decide (event = e)) as [->|Hne].
  - by rewrite lookup_insert_eq, H.
  - by rewrite lookup_insert_ne.
Qed.

Lemma ensure_lookup {Fn} (this : EventClass (Fn := Fn)) event :
  events (ensure event this) !! event = Some (events_get event this).
Proof.
  unfold ensure, events_get. destruct (events this !! event) eqn:H.
  - by rewrite H.
  - cbn [events set_events warn]. by rewrite lookup_insert_eq.
Qed.

Lemma next_oid_ensure {Fn} (this : EventClass (Fn := Fn)) event :
  next_oid (ensure event this) = next_oid this.
Proof. unfold ensure. by destruct (events this !! event). Qed.

(** X1. [createEvent] never touches the receivers of any event: it is
    idempotent, it leaves an event that already has receivers as it is,
    and afterwards the name is declared. *)
Theorem createEvent_keeps_receivers {Fn} (this : EventClass (Fn := Fn))
  name e :
  events_get e (createEvent name this) = events_get e this ∧
  is_Some (events (createEvent name this) !! name) ∧
  createEvent name (createEvent name this) = createEvent name this ∧
  next_oid (createEvent name this) = next_oid this ∧
  console (createEvent name this) = console this.
Proof.
  unfold createEvent at 1 2 4 5 6 7. unfold events_get.
  destruct (events this !! name) as [arr|] eqn:H.
  - split_and!; try done. unfold createEvent. by rewrite H.
  - cbn [events set_events next_oid console]. split_and!; try done.
    + destruct (decide (name = e)) as [->|Hne].
      * by rewrite lookup_insert_eq, H.
      * by rewrite lookup_insert_ne.
    + rewrite lookup_insert_eq. by eexists.
    + unfold createEvent. cbn [events set_events].
      by rewrite lookup_insert_eq.
Qed.

(** X2. Emitting an event that was never declared calls nothing and throws
    nothing; it declares the event with no receivers and writes one warning
    to the console. A second emission changes nothing more. *)
Theorem emitEvent_undeclared {Fn St} (call : Fn → list arg → M St unit)
  (this : EventClass) event args σ :
  events this !! event = None →
  let declared :=
    MkEventClass (<[event := []]> (events this)) (next_oid this)
                 (console this ++ ["event not yet created: " +:+ event]) in
  emitEvent call event args (this, σ) = (Normal tt, (declared, σ)) ∧
  emitEvent call event args (declared, σ) = (Normal tt, (declared, σ)).
Proof.
  intros H declared.
  assert (events declared !! event = Some []) as Hd
    by (cbn [events declared]; by rewrite lookup_insert_eq).
  split.
  - unfold emitEvent, bind, modify, forEach. cbn [fst snd].
    assert (ensure event this = declared) as ->
      by (unfold ensure; by rewrite H).
    by rewrite (events_get_lookup _ _ _ Hd).
  - by rewrite (emitEvent_declared _ _ _ _ _ _ Hd).
Qed.

Lemma emitEvent_undeclared_witness :
  let this : EventClass (Fn := nat) := constructor ["meow"] in
  events this !! "purr" = None ∧
  emitEvent record_call "purr" [] (this, []) =
  (Normal tt,
   (MkEventClass (<["purr" := []]> (events this)) 0
                 ["event not yet created: purr"], [])).
Proof.
  intros this. assert (events this !! "purr" = None) as H by by vm_compute.
  split; [exact H|].
  exact (proj1 (emitEvent_undeclared record_call this "purr" [] [] H)).
Defined.

Lemma on_lookup {Fn} (this : EventClass (Fn := Fn)) event f i :
  events (on event f i this) !! event =
  Some (events_get event this ++ [Entry (next_oid this) (Plain f) i]).
Proof.
  unfold on, push. cbn [events set_events].
  by rewrite lookup_alter_eq, ensure_lookup, next_oid_ensure.
Qed.


Lemma on_lookup_ne {Fn} (this : EventClass (Fn := Fn)) event f i e :
  event ≠ e → events_get e (on event f i this) = events_get e this.
Proof.
  intros Hne. unfold on, push, events_get at 1. cbn [events set_events].
  rewrite lookup_alter_ne by done. apply (events_get_ensure this event e).
Qed.

Lemma once_lookup_ne {Fn} (this : EventClass (Fn := Fn)) event f i e :
  event ≠ e → events_get e (once event f i this) = events_get e this.
Proof.
  intros Hne. unfold once, push, events_get at 1. cbn [events set_events].
  rewrite lookup_alter_ne by done. apply (events_get_ensure this event e).
Qed.

(** X3. A receiver registered with [on] goes to the end of its event's
    array and leaves every other event alone; where the receivers of the
    event all come from [on], the next emission calls the earlier ones and
    then the new one, each with the emitted arguments, and changes nothing
    in the registry. *)
Theorem on_registers_last (this : EventClass) event f i args fs calls :
  fn <$> events_get event this = Plain <$> fs →
  events_get event (on event f i this) =
    events_get event this ++ [Entry (next_oid this) (Plain f) i] ∧
  (∀ e, event ≠ e → events_get e (on event f i this) = events_get e this) ∧
  emitEvent record_call event args (on event f i this, calls) =
    (Normal tt,
     (on event f i this, calls ++ ((fun g => (g, args)) <$> (fs ++ [f])))).
Proof.
  intros Hfs. pose proof (on_lookup this event f i) as Hon.
  split_and!.
  - by apply events_get_lookup.
  - intros e. apply on_lookup_ne.
  - assert (fn <$> events_get event this ++ [Entry (next_oid this) (Plain f) i]
            = Plain <$> (fs ++ [f])) as Hall
      by (by rewrite !fmap_app, Hfs).
    rewrite (emitEvent_plain _ _ _ _ _ _ Hon (plain_receivers _ _ Hall)).
    by apply each_plain_calls.
Qed.

Lemma on_registers_last_witness :
  let this := on "meow" 1%nat "a" (constructor ["meow"]) in
  fn <$> events_get "meow" this = Plain <$> [1%nat] ∧
  emitEvent record_call "meow" [] (on "meow" 2%nat "b" this, []) =
    (Normal tt, (on "meow" 2%nat "b" this, [(1%nat, []); (2%nat, [])])).
Proof.
  intros this.
  assert (fn <$> events_get "meow" this = Plain <$> [1%nat]) as H
    by by vm_compute.
  split; [exact H|].
  exact (proj2 (proj2 (on_registers_last this "meow" 2%nat "b" [] [1%nat]
                         [] H))).
Defined.






Lemma foldl_warn {Fn} (this : EventClass (Fn := Fn)) (lines : list string) :
  foldl (fun this line => warn line this) this lines =
  MkEventClass (events this) (next_oid this) (console this ++ lines).
Proof.
  revert this. induction lines as [|l lines IH]; intros this.
  - destruct this. cbn. by rewrite app_nil_r.
  - cbn [foldl]. rewrite IH. cbn [events next_oid console warn].
    by rewrite <- app_assoc.
Qed.

(** X6. [debugEvent] writes a heading and then the ids of the event's
    receivers, in registration order, to the console; it registers and
    removes nothing. On an event never declared it first declares it, with
    the usual warning. *)
Theorem debugEvent_lists_ids {Fn} (this : EventClass (Fn := Fn)) event :
  (∀ e, events_get e (debugEvent event this) = events_get e this) ∧
  next_oid (debugEvent event this) = next_oid this ∧
  console (debugEvent event this) =
    console (ensure event this) ++
    ("ids registered to event `" +:+ event +:+ "`:")
      :: (id <$> events_get event this) ∧
  console (ensure event this) =
    match events this !! event with
    | Some _ => console this
    | None => console this ++ ["event not yet created: " +:+ event]
    end.
Proof.
  unfold debugEvent.
  assert (∀ (l : list (entry (Fn := Fn))) (t : EventClass),
            foldl (fun (this : EventClass (Fn := Fn)) o =>
                     warn (id o) this) t l =
            foldl (fun this line => warn line this) t (id <$> l)) as Hfold.
  { intros l. induction l as [|o l IH]; intros t; [done|]. cbn. apply IH. }
  rewrite Hfold, foldl_warn. cbn [events next_oid console warn].
  rewrite events_get_ensure, next_oid_ensure. split_and!.
  - intros e. unfold events_get at 1. cbn [events].
    apply (events_get_ensure this event e).
  - done.
  - by rewrite <- app_assoc.
  - unfold ensure. by destruct (events this !! event).
Qed.

(** ** The registry invariant *)

Lemma array_remove_Forall {Fn} (P : entry (Fn := Fn) → Prop) arr x :
  Forall P arr → Forall P (array_remove arr x).
Proof.
  induction 1 as [|o arr Ho Harr IH]; cbn [array_remove]; [done|].
  destruct (decide (oid o = x)); [done|by constructor].
Qed.

Lemma array_remove_elem {Fn} (arr : list (entry (Fn := Fn))) x o :
  o ∈ array_remove arr x → o ∈ arr.
Proof.
  induction arr as [|h arr IH]; cbn [array_remove]; [done|].
  destruct (decide (oid h = x)).
  - apply list_elem_of_further.
  - intros [->|H]%elem_of_cons; [apply list_elem_of_here|].
    apply list_elem_of_further. by apply IH.
Qed.

Lemma array_remove_NoDup {Fn} (arr : list (entry (Fn := Fn))) x :
  NoDup (oid <$> arr) → NoDup (oid <$> array_remove arr x).
Proof.
  induction arr as [|h arr IH]; cbn [array_remove]; [done|].
  rewrite fmap_cons. intros [Hh Harr]%NoDup_cons.
  destruct (decide (oid h = x)); [done|].
  rewrite fmap_cons. apply NoDup_cons. split; [|by apply IH].
  intros (o & Ho & Hin)%list_elem_of_fmap. apply Hh. rewrite Ho.
  apply list_elem_of_fmap_2. by apply (array_remove_elem _ x).
Qed.

(** Removing a one-shot wrapper by its identity takes out that object and
    no receiver that came from [on]. *)
Lemma array_remove_keeps_plain {Fn} (arr : list (entry (Fn := Fn))) o :
  NoDup (oid <$> arr) → o ∈ arr → is_plain o = false →
  filter (fun o => is_plain o = true) (array_remove arr (oid o)) =
  filter (fun o => is_plain o = true) arr.
Proof.
  intros Hnd Ho Hp. induction arr as [|h arr IH]; [done|].
  rewrite fmap_cons in Hnd. apply NoDup_cons in Hnd as [Hh Hnd].
  cbn [array_remove]. destruct (decide (oid h = oid o)) as [Heq|Hne].
  - assert (h = o) as ->.
    { apply elem_of_cons in Ho as [->|Ho]; [done|]. exfalso. apply Hh.
      rewrite Heq. by apply list_elem_of_fmap_2. }
    rewrite filter_cons_False; [done|]. by rewrite Hp.
  - apply elem_of_cons in Ho as [->|Ho]; [done|].
    rewrite !filter_cons. by rewrite IH.
Qed.

Lemma registry_wf_replace {Fn} (this : EventClass (Fn := Fn)) event arr' :
  registry_wf this →
  Forall (fun o => (oid o < next_oid this)%nat) arr' →
  NoDup (oid <$> arr') →
  Forall (fun o => ∀ f e, fn o = OnceWrapper f e → e = event) arr' →
  registry_wf (set_events (insert event arr') this).
Proof.
  intros Hwf H1 H2 H3 e arr. cbn [events set_events next_oid].
  destruct (decide (event = e)) as [->|Hne].
  - rewrite lookup_insert_eq. by intros [= <-].
  - rewrite lookup_insert_ne by done. apply Hwf.
Qed.

Lemma registry_wf_ensure {Fn} (this : EventClass (Fn := Fn)) event :
  registry_wf this → registry_wf (ensure event this).
Proof.
  intros Hwf. unfold ensure. destruct (events this !! event); [done|].
  apply (registry_wf_replace (warn _ this)); try done.
  apply NoDup_nil_2.
Qed.

Lemma registry_wf_createEvent {Fn} (this : EventClass (Fn := Fn)) name :
  registry_wf this → registry_wf (createEvent name this).
Proof.
  intros Hwf. unfold createEvent. destruct (events this !! name); [done|].
  apply registry_wf_replace; try done. apply NoDup_nil_2.
Qed.

Lemma registry_wf_constructor {Fn} (names : list string) :
  registry_wf (constructor (Fn := Fn) names).
Proof.
  unfold constructor.
  assert (registry_wf (MkEventClass (Fn := Fn) ∅ 0 [])) as H0.
  { intros e arr. cbn [events]. by rewrite lookup_empty. }
  revert H0. generalize (MkEventClass (Fn := Fn) ∅ 0 []).
  induction names as [|n names IH]; intros this H; [done|].
  cbn [foldl]. apply IH. by apply registry_wf_createEvent.
Qed.

Lemma registry_wf_push {Fn} (this : EventClass (Fn := Fn)) event r i :
  registry_wf this →
  (∀ f e, r = OnceWrapper f e → e = event) →
  is_Some (events this !! event) →
  registry_wf
    (push event (Entry (next_oid this) r i)
       (MkEventClass (events this) (S (next_oid this)) (console this))).
Proof.
  intros Hwf Hr [arr0 Harr0] e arr. unfold push.
  cbn [events set_events next_oid].
  destruct (decide (event = e)) as [->|Hne].
  - rewrite lookup_alter_eq, Harr0. intros [= <-].
    destruct (Hwf e arr0 Harr0) as (H1 & H2 & H3). split_and!.
    + apply Forall_app. split; [|by repeat constructor].
      eapply Forall_impl; [exact H1|]. intros o Ho. simpl in Ho. lia.
    + rewrite fmap_app. apply NoDup_app. split_and!; [done| |].
      * intros x (o & Hx & Ho)%list_elem_of_fmap Hin.
        apply list_elem_of_singleton in Hin. cbn [oid] in Hin.
        pose proof (proj1 (Forall_forall _ _) H1 o Ho) as Hlt.
        cbn beta in Hlt. lia.
      * apply NoDup_singleton.
    + apply Forall_app. split; [done|]. by repeat constructor.
  - rewrite lookup_alter_ne by done. intros Harr.
    destruct (Hwf e arr Harr) as (H1 & H2 & H3). split_and!; [|done..].
    eapply Forall_impl; [exact H1|]. intros o Ho. simpl in Ho. lia.
Qed.

Lemma registry_wf_on {Fn} (this : EventClass (Fn := Fn)) event f i :
  registry_wf this → registry_wf (on event f i this).
Proof.
  intros Hwf. unfold on. apply registry_wf_push.
  - by apply registry_wf_ensure.
  - done.
  - rewrite ensure_lookup. by eexists.
Qed.

Lemma registry_wf_once {Fn} (this : EventClass (Fn := Fn)) event f i :
  registry_wf this → registry_wf (once event f i this).
Proof.
  intros Hwf. unfold once. apply registry_wf_push.
  - by apply registry_wf_ensure.
  - by intros ?? [= _ ->].
  - rewrite ensure_lookup. by eexists.
Qed.

(** What holds before a [forEach] and is kept by the callback on every
    element found in the array holds after it. *)
Lemma forEach_from_inv {St A} (arr : St → list A) (cb : A → M St unit)
  (P : St → Prop) :
  (∀ x σ, P σ → x ∈ arr σ → P (cb x σ).2) →
  ∀ n k σ, P σ → P (forEach_from arr cb n k σ).2.
Proof.
  intros Hcb n. induction n as [|n IH]; intros k σ HP; [done|].
  cbn [forEach_from]. destruct (arr σ !! k) as [x|] eqn:Hx; [|by apply IH].
  unfold bind. pose proof (Hcb x σ HP (list_elem_of_lookup_2 _ _ _ Hx)) as H.
  destruct (cb x σ) as [[[]|e] σ']; [|done]. by apply IH.
Qed.

(** One receiver run by an emission keeps the invariant and every receiver
    that came from [on]. *)
Lemma apply_keeps {Fn St} (call : Fn → list arg → M St unit)
  (Q : EventClass (Fn := Fn) → Prop) event o args σ :
  (∀ this e arr, Q this → registry_wf this → events this !! e = Some arr →
     ∀ o, o ∈ arr → is_plain o = false →
       Q (set_events (insert e (array_remove arr (oid o))) this)) →
  registry_wf σ.1 → Q σ.1 → o ∈ events_get event σ.1 →
  registry_wf (apply call o args σ).2.1 ∧ Q (apply call o args σ).2.1.
Proof.
  intros HQ Hwf Hq Ho. unfold apply.
  destruct (fn o) as [f|f e] eqn:Hfn.
  { by destruct (call f args σ.2). }
  destruct (call f args σ.2) as [[[]|x] s]; [|done].
  unfold events_get in Ho.
  destruct (events σ.1 !! event) as [arr|] eqn:Harr;
    [|by apply elem_of_nil in Ho].
  cbn [from_option Datatypes.id] in Ho.
  destruct (Hwf event arr Harr) as (H1 & H2 & H3).
  pose proof (proj1 (Forall_forall _ _) H3 o Ho f e Hfn) as ->.
  rewrite Harr. cbn [fst snd]. split.
  - apply registry_wf_replace; [done|by apply array_remove_Forall
      |by apply array_remove_NoDup|by apply array_remove_Forall].
  - apply (HQ _ _ _ Hq Hwf Harr o Ho). unfold is_plain. by rewrite Hfn.
Qed.

(** X7. The registry invariant: the state the constructor builds has it,
    and [createEvent], [on], [once] and every emission keep it, whatever
    the receivers do outside the emitter. So two registered objects never
    share an identity, and [array_remove] can only take out the wrapper it
    is given. *)
Theorem registry_wf_kept {Fn St} (call : Fn → list arg → M St unit)
  (names : list string) (this : EventClass) event f i args σ :
  registry_wf this →
  registry_wf (constructor (Fn := Fn) names) ∧
  registry_wf (createEvent event this) ∧
  registry_wf (on event f i this) ∧
  registry_wf (once event f i this) ∧
  registry_wf (emitEvent call event args (this, σ)).2.1.
Proof.
  intros Hwf. split_and!.
  - apply registry_wf_constructor.
  - by apply registry_wf_createEvent.
  - by apply registry_wf_on.
  - by apply registry_wf_once.
  - unfold emitEvent, bind, modify, forEach. cbn [fst snd].
    apply (forEach_from_inv _ _ (fun σ => registry_wf σ.1));
      [|by apply registry_wf_ensure].
    intros o σ' Hwf' Ho.
    by apply (apply_keeps call (fun _ => True) event).
Qed.

Lemma registry_wf_kept_witness :
  let this : EventClass (Fn := nat) :=
    once "meow" 2%nat "b" (on "meow" 1%nat "a" (constructor ["meow"])) in
  registry_wf this ∧
  registry_wf (emitEvent record_call "meow" [] (this, [])).2.1.
Proof.
  intros this.
  assert (registry_wf this) as H.
  { apply registry_wf_once, registry_wf_on, registry_wf_constructor. }
  split; [exact H|].
  exact (proj2 (proj2 (proj2 (proj2
    (registry_wf_kept record_call [] this "meow" 0%nat "c" [] [] H))))).
Defined.

(** X8. An emission never unregisters a receiver that came from [on]:
    under every event name, the receivers registered with [on] are the
    same, in the same order, after the emission as before it. Only
    one-shot wrappers leave the arrays. *)
Theorem emitEvent_keeps_plain_receivers {Fn St}
  (call : Fn → list arg → M St unit) (this : EventClass) event args σ e :
  registry_wf this →
  filter (fun o => is_plain o = true)
         (events_get e (emitEvent call event args (this, σ)).2.1) =
  filter (fun o => is_plain o = true) (events_get e this).
Proof.
  intros Hwf. unfold emitEvent, bind, modify, forEach. cbn [fst snd].
  set (Q := fun t : EventClass (Fn := Fn) =>
              filter (fun o => is_plain o = true) (events_get e t) =
              filter (fun o => is_plain o = true) (events_get e this)).
  apply (forEach_from_inv _ _ (fun σ => registry_wf σ.1 ∧ Q σ.1)).
  - intros o σ' [Hwf' Hq] Ho.
    apply (apply_keeps call Q event); [|done..].
    intros t e' arr Hqt Hwft Harr o' Ho' Hp'. unfold Q in *.
    rewrite <- Hqt. unfold events_get. cbn [events set_events].
    destruct (decide (e' = e)) as [->|Hne].
    + rewrite lookup_insert_eq, Harr. cbn [from_option Datatypes.id].
      apply array_remove_keeps_plain; [|done..].
      by destruct (Hwft e arr Harr) as (_ & ? & _).
    + by rewrite lookup_insert_ne.
  - cbn [fst]. split; [by apply registry_wf_ensure|].
    unfold Q. by rewrite events_get_ensure.
Qed.

Lemma emitEvent_keeps_plain_receivers_witness :
  let this : EventClass (Fn := nat) :=
    on "meow" 3%nat "c"
      (once "meow" 2%nat "b" (on "meow" 1%nat "a" (constructor ["meow"]))) in
  registry_wf this ∧
  filter (fun o => is_plain o = true)
         (events_get "meow"
            (emitEvent record_call "meow" [] (this, [])).2.1) =
  filter (fun o => is_plain o = true) (events_get "meow" this).
Proof.
  intros this.
  assert (registry_wf this) as H.
  { apply registry_wf_on, registry_wf_once, registry_wf_on,
      registry_wf_constructor. }
  split; [exact H|].
  exact (emitEvent_keeps_plain_receivers record_call this "meow" [] []
           "meow" H).
Defined.

(** ** More on the server *)

Lemma parse_value_greeting F c :
  JSON.parse_value (S (S F)) (envelope (VStr c) VUndefined) =
  Some (VObj [(lit "command", VStr c)], []).
Proof.
  assert (envelope (VStr c) VUndefined =
          123 :: JSON.quote (lit "command") ++ 58 :: text_of (VStr c) ++ [125])
    as ->.
  { unfold envelope, JSON.stringify, text_of.
    cbn [JSON.ser omap list_omap fst snd fmap option_fmap option_map
         JSON.join_commas default from_option Datatypes.id].
    by rewrite <- !app_assoc. }
  rewrite parse_value_object, next_is_quote by done.
  rewrite parse_member_quote, parse_value_string. cbn [mbind option_bind].
  by rewrite parse_members_end.
Qed.

Lemma parse_envelope_undefined c :
  JSON.parse (envelope (VStr c) VUndefined) =
  Some (VObj [(lit "command", VStr c)]).
Proof.
  unfold JSON.parse.
  assert (∃ F, length (envelope (VStr c) VUndefined) = S F) as [F ->].
  { unfold envelope, JSON.stringify.
    cbn [JSON.ser omap list_omap fst snd fmap option_fmap option_map
         JSON.join_commas default from_option Datatypes.id length].
    by eexists. }
  by rewrite parse_value_greeting.
Qed.

Lemma decode_envelope_undefined c :
  decode (envelope (VStr c) VUndefined) = Normal (VStr c, VUndefined).
Proof. unfold decode. by rewrite parse_envelope_undefined. Qed.

(** X9. [write] with the data left out, as in [socket.write('hi')], sends
    an envelope that [JSON.parse] reads as an object with the one member
    [command], and the inbound path hands the [data] event the command
    with [undefined] data. *)
Theorem write_without_data_round_trip c :
  JSON.parse (envelope (VStr c) VUndefined) =
    Some (VObj [(lit "command", VStr c)]) ∧
  decode (envelope (VStr c) VUndefined) = Normal (VStr c, VUndefined).
Proof.
  split; [apply parse_envelope_undefined|apply decode_envelope_undefined].
Qed.

(** X10. On a new connection, which is open, the server builds a socket
    whose [data] event has [handleData] as its one receiver, without any
    console warning, and sends the connection one text frame, which reads
    as the greeting [hi] without data; the session is not put in the
    registry, and the canvas, the waiting callbacks and the boards are
    left alone. *)
Theorem on_connection_greets ws w :
  ws ∉ not_open w →
  let socket := on "data" HandleData "[unidentified]" (constructor ["data"]) in
  let r := on_connection ws w in
  r.1 = Normal socket ∧
  events_get "data" socket = [Entry 0 (Plain HandleData) "[unidentified]"] ∧
  console socket = [] ∧
  (∃ greeting,
     sent r.2 = sent w ++ [(ws, TextFrame greeting)] ∧
     decode greeting = Normal (VStr (lit "hi"), VUndefined)) ∧
  sockets r.2 = sockets w ∧ canvas r.2 = canvas w ∧
  pending r.2 = pending w ∧ boards r.2 = boards w.
Proof.
  intros Hopen socket r.
  assert (r = (Normal socket,
               set_sent (fun l => l ++ [(ws, TextFrame
                           (envelope (VStr (lit "hi")) VUndefined))]) w))
    as ->.
  { subst r. unfold on_connection, bind, write, ws_send.
    by rewrite decide_False. }
  split_and!; [done|by vm_compute|by vm_compute| |done..].
  eexists. split; [reflexivity|apply decode_envelope_undefined].
Qed.

Lemma on_connection_greets_witness :
  (7%nat ∉ not_open (startup 0)) ∧
  ∃ greeting,
    sent (on_connection 7%nat (startup 0)).2 = [(7%nat, TextFrame greeting)] ∧
    decode greeting = Normal (VStr (lit "hi"), VUndefined).
Proof.
  assert (7%nat ∉ not_open (startup 0)) as H by apply not_elem_of_empty.
  split; [exact H|].
  exact (proj1 (proj2 (proj2 (proj2
    (on_connection_greets 7%nat (startup 0) H))))).
Defined.

Lemma inbox_deliveries_none s command data (l : list nat) :
  s ∉ l → inbox s (deliveries command data l) = [].
Proof.
  intros Hs. rewrite inbox_deliveries.
  assert (filter (fun t => t = s) l = []) as ->; [|done].
  induction l as [|t l IH]; [done|].
  apply not_elem_of_cons in Hs as [Hne Hs].
  rewrite filter_cons_False by (intros <-; by apply Hne). by apply IH.
Qed.

Lemma live_elem closed (l : list nat) t : t ∈ live closed l → t ∈ l.
Proof. unfold live. by intros [_ H]%list_elem_of_filter. Qed.

(** X11. [broadcast] sends nothing to the session it is told to exclude,
    and nothing to a session that is not in the registry: a client that
    has connected but not joined sees no broadcast. *)
Theorem broadcast_skips command data exclude w s :
  Some s = exclude ∨ s ∉ sockets w →
  inbox s (sent (broadcast command data exclude w).2) = inbox s (sent w).
Proof.
  intros Hs. rewrite broadcast_spec. cbn [snd sent set_sent].
  rewrite inbox_app, inbox_deliveries_none; [by rewrite app_nil_r|].
  intros Hin%live_elem. unfold destinations in Hin.
  apply list_elem_of_filter in Hin as [Hne Hin]. by destruct Hs.
Qed.

Lemma broadcast_skips_witness :
  let w := MkWorld [1; 2]%nat canvas0 ∅ [] [] [] 0 in
  (Some 2%nat = Some 2%nat ∨ 2%nat ∉ sockets w) ∧
  inbox 2%nat (sent (broadcast (VStr (lit "clear")) VNull (Some 2%nat) w).2)
    = [] ∧
  inbox 1%nat (sent (broadcast (VStr (lit "clear")) VNull (Some 2%nat) w).2)
    = [TextFrame (envelope (VStr (lit "clear")) VNull)].
Proof.
  intros w.
  assert (Some 2%nat = Some 2%nat ∨ 2%nat ∉ sockets w) as H by by left.
  split_and!; [exact H| |reflexivity].
  exact (broadcast_skips (VStr (lit "clear")) VNull (Some 2%nat) w 2%nat H).
Defined.

(** X12. A [line], [dot] or [erase] envelope without data (or with [null]
    data) makes [handleData] throw a [TypeError] at the first property
    read, before the canvas is drawn on and before anything is sent; the
    exception goes through [emitEvent] to the caller of the message
    handler. *)
Theorem drawing_without_data_throws command _data socket w
  (this : EventClass (Fn := server_fn)) o i :
  command ∈ [lit "line"; lit "dot"; lit "erase"] →
  _data = VUndefined ∨ _data = VNull →
  events this !! "data" = Some [Entry o (Plain HandleData) i] →
  handleData (VStr command) _data socket w = (Throw TypeError, w) ∧
  receive socket (envelope (VStr command) VUndefined) (this, w) =
    (Throw TypeError, (this, w)).
Proof.
  intros Hc Hd Hev.
  assert (∀ d, d = VUndefined ∨ d = VNull →
               handleData (VStr command) d socket w = (Throw TypeError, w))
    as Hthrow.
  { intros d [-> | ->];
      repeat (apply elem_of_cons in Hc as [->|Hc]); try reflexivity;
      by apply elem_of_nil in Hc. }
  split; [by apply Hthrow|].
  unfold receive.
  rewrite on_message_decode, decode_envelope_undefined.
  rewrite (emitEvent_single _ _ _ _ _ _ _ _ Hev). cbn [call_server].
  rewrite Hthrow; [done|by left].
Qed.

Lemma drawing_without_data_throws_witness :
  let this := on "data" HandleData "[unidentified]" (constructor ["data"]) in
  lit "line" ∈ [lit "line"; lit "dot"; lit "erase"] ∧
  (VUndefined = VUndefined ∨ VUndefined = VNull) ∧
  events this !! "data" = Some [Entry 0 (Plain HandleData) "[unidentified]"] ∧
  receive 7%nat (envelope (VStr (lit "line")) VUndefined) (this, startup 0) =
    (Throw TypeError, (this, startup 0)).
Proof.
  intros this.
  assert (lit "line" ∈ [lit "line"; lit "dot"; lit "erase"]) as H1
    by apply list_elem_of_here.
  assert (VUndefined = VUndefined ∨ VUndefined = VNull) as H2 by by left.
  assert (events this !! "data" =
          Some [Entry 0 (Plain HandleData) "[unidentified]"]) as H3
    by by vm_compute.
  split_and!; [exact H1|exact H2|exact H3|].
  exact (proj2 (drawing_without_data_throws (lit "line") VUndefined 7%nat
                  (startup 0) this 0%nat "[unidentified]" H1 H2 H3)).
Defined.

(** ** What the server's code never undoes *)

Lemma grows_refl w : grows w w.
Proof. by repeat split. Qed.

Lemma grows_trans w1 w2 w3 : grows w1 w2 → grows w2 w3 → grows w1 w3.
Proof.
  intros (a1 & a2 & a3 & a4 & a5 & a6 & a7) (b1 & b2 & b3 & b4 & b5 & b6 & b7).
  repeat split; try (by etrans); congruence.
Qed.

Lemma respects_bind {A B} (R : world → world → Prop) (m : M world A)
  (k : A → M world B) :
  (∀ w1 w2 w3, R w1 w2 → R w2 w3 → R w1 w3) →
  respects R m → (∀ a, respects R (k a)) → respects R (bind m k).
Proof.
  intros HR Hm Hk w. unfold bind. specialize (Hm w).
  destruct (m w) as [[a|e] w']; [|done].
  eapply HR; [exact Hm|apply Hk].
Qed.

Lemma respects_get_prop (R : world → world → Prop) v k :
  (∀ w, R w w) → respects R (get_prop v k).
Proof. intros HR w. destruct v; apply HR. Qed.

Lemma grows_ws_send socket f : respects grows (ws_send socket f).
Proof.
  intros w. unfold ws_send. destruct (decide (socket ∈ not_open w)).
  - apply grows_refl.
  - repeat split; try done. by apply prefix_app_r.
Qed.

Lemma grows_broadcast command data exclude :
  respects grows (broadcast command data exclude).
Proof.
  intros w. rewrite broadcast_spec. repeat split; try done.
  by apply prefix_app_r.
Qed.

Lemma grows_draw c : respects grows (modify (set_canvas (Canvas_draw c))).
Proof. intros w. repeat split; try done. by apply prefix_app_r. Qed.

Lemma grows_saveCanvas buffer : respects grows (saveCanvas buffer).
Proof.
  intros w. destruct buffer; [|by repeat split].
  repeat split; try done. by apply prefix_app_r.
Qed.

Lemma grows_handleData command _data socket :
  respects grows (handleData command _data socket).
Proof.
  unfold handleData.
  repeat match goal with |- context [if ?b then _ else _] => destruct b end;
    repeat first
      [ apply (respects_bind grows); [apply grows_trans| |intros ?]
      | apply respects_get_prop; apply grows_refl
      | apply grows_broadcast | apply grows_draw | apply grows_saveCanvas
      | apply grows_ws_send ];
    intros w; repeat split; try done; by apply prefix_app_r.
Qed.

Lemma boards_handleData command _data socket :
  respects (fun w w' => boards w' = boards w)
           (handleData command _data socket).
Proof.
  assert (∀ w1 w2 w3 : world, boards w2 = boards w1 → boards w3 = boards w2 →
                              boards w3 = boards w1) as Htrans by congruence.
  assert (∀ c d e, respects (fun w w' => boards w' = boards w)
                            (broadcast c d e)) as Hb.
  { intros c d e w. by rewrite broadcast_spec. }
  assert (∀ s f, respects (fun w w' => boards w' = boards w) (ws_send s f))
    as Hs.
  { intros s f w. unfold ws_send. by destruct (decide (s ∈ not_open w)). }
  unfold handleData.
  repeat match goal with |- context [if ?b then _ else _] => destruct b end;
    repeat first
      [ apply (respects_bind _ _ _ Htrans); [|intros ?]
      | apply respects_get_prop; done
      | apply Hb | apply Hs ];
    by intros w.
Qed.

(** X15. Whatever the command, the payload and the sender, and whether it
    returns or throws, [handleData] only adds: the registry, the sent log
    and the drawing calls on the canvas are extended at the end, never
    shortened or rewritten; the canvas size, the connections and the clock
    are untouched; and no board is written before a callback runs. No
    session is ever taken out of the registry. *)
Theorem handleData_only_grows command _data socket w :
  grows w (handleData command _data socket w).2 ∧
  boards (handleData command _data socket w).2 = boards w.
Proof. split; [apply grows_handleData|apply boards_handleData]. Qed.

Lemma step_cases w :
  (pending w = [] ∧ step w = (Normal tt, w)) ∨
  (∃ t q, pending w = t :: q ∧
          step w = run_task t (set_pending (fun _ => q) w)).
Proof.
  unfold step. destruct (pending w) as [|t q]; [by left|].
  right. by eexists _, _.
Qed.

(** X16. A turn of the event loop never touches the registry or the
    canvas; it only appends to the sent log and the boards, and it uses up
    one of the turns the waiting callbacks need, so the callbacks of a
    [join] or a [clear] are finished after two turns each and never queue
    themselves again. *)
Theorem step_only_saves_and_sends w :
  let w' := (step w).2 in
  grows w w' ∧ sockets w' = sockets w ∧ canvas w' = canvas w ∧
  (pending w ≠ [] →
   (sum_list_with turns (pending w') < sum_list_with turns (pending w))%nat).
Proof.
  intros w'. subst w'.
  destruct (step_cases w) as [[He ->]|(t & q & Hp & ->)].
  { split_and!; [apply grows_refl|done..]. }
  rewrite Hp. destruct t as [blob k|result [|socket]]; cbn [run_task].
  - split_and!; [by repeat split|done..|].
    intros _. cbn. rewrite sum_list_with_app. cbn. lia.
  - split_and!; [|done..|intros _; cbn; lia].
    repeat split; try done. by apply prefix_app_r.
  - unfold bind, writeArrayBuffer, ws_send. cbn [not_open set_pending].
    destruct (decide (socket ∈ not_open w));
      (split_and!; [|done..|intros _; cbn; lia]);
      repeat split; try done; cbn; by apply prefix_app_r.
Qed.

Lemma step_only_saves_and_sends_witness :
  let w := MkWorld [7%nat] canvas0 ∅ [] [BlobCreated canvas0 SaveIt] [] 5 in
  pending w ≠ [] ∧
  (sum_list_with turns (pending (step w).2) <
   sum_list_with turns (pending w))%nat.
Proof.
  intros w. assert (pending w ≠ []) as H by discriminate.
  split; [exact H|].
  exact (proj2 (proj2 (proj2 (step_only_saves_and_sends w))) H).
Defined.

(** X17. An envelope whose command is not a string (a frame without a
    [command] member, or with a number, an array or an object there)
    matches no [case]: the message handler dispatches it and [handleData]
    does nothing with it. *)
Theorem non_string_command_ignored command _data socket frame w
  (this : EventClass (Fn := server_fn)) o i :
  (∀ s, command ≠ VStr s) →
  events this !! "data" = Some [Entry o (Plain HandleData) i] →
  decode frame = Normal (command, _data) →
  receive socket frame (this, w) = (Normal tt, (this, w)).
Proof.
  intros Hc Hev Hdec. unfold receive. rewrite on_message_decode, Hdec.
  rewrite (emitEvent_single _ _ _ _ _ _ _ _ Hev). cbn [call_server].
  rewrite handleData_other; [done|]. intros label _. apply Hc.
Qed.

Lemma non_string_command_ignored_witness :
  let this := on "data" HandleData "[unidentified]" (constructor ["data"]) in
  (∀ s, VUndefined ≠ VStr s) ∧
  events this !! "data" = Some [Entry 0 (Plain HandleData) "[unidentified]"] ∧
  decode (lit "{}") = Normal (VUndefined, VUndefined) ∧
  receive 7%nat (lit "{}") (this, startup 0) = (Normal tt, (this, startup 0)).
Proof.
  intros this.
  assert (∀ s, VUndefined ≠ VStr s) as H1 by discriminate.
  assert (events this !! "data" =
          Some [Entry 0 (Plain HandleData) "[unidentified]"]) as H2
    by by vm_compute.
  assert (decode (lit "{}") = Normal (VUndefined, VUndefined)) as H3
    by by vm_compute.
  split_and!; [exact H1|exact H2|exact H3|].
  exact (non_string_command_ignored VUndefined VUndefined 7%nat (lit "{}")
           (startup 0) this 0%nat "[unidentified]" H1 H2 H3).
Defined.

(** ** Round trip of JSON values *)

Lemma ser_defined v : v ≠ VUndefined → JSON.ser v = Some (text_of v).
Proof. by destruct v. Qed.

Lemma json_defined v : json_value v → v ≠ VUndefined.
Proof. by intros []. Qed.

Lemma text_of_array_json l :
  Forall json_value l →
  text_of (VArr l) = 91 :: JSON.join_commas (text_of <$> l) ++ [93].
Proof.
  intros H. unfold text_of at 1.
  cbn [JSON.ser default from_option Datatypes.id]. do 3 f_equal.
  apply list_fmap_ext. intros i e Hi.
  rewrite (ser_defined e); [done|].
  apply json_defined. by apply (proj1 (Forall_lookup _ _) H i).
Qed.

Lemma text_of_object kvs :
  Forall (fun kv => json_value kv.2) kvs →
  text_of (VObj kvs) = 123 :: JSON.join_commas (member_text <$> kvs) ++ [125].
Proof.
  intros H. unfold text_of at 1.
  cbn [JSON.ser default from_option Datatypes.id]. do 3 f_equal.
  induction H as [|kv kvs Hkv _ IH]; [done|].
  cbn [omap list_omap fmap list_fmap].
  rewrite (ser_defined kv.2) by by apply json_defined.
  cbn [fmap option_fmap option_map]. by rewrite IH.
Qed.

Lemma number_not_neg_zero neg ds n :
  canonical ds n → mentions_neg_zero (VNum (Finite neg ds n)) = false →
  Finite neg ds n ≠ neg_zero.
Proof. intros Hc Hz [= -> -> ->]. done. Qed.

Lemma json_payload_number neg ds n :
  canonical ds n → mentions_neg_zero (VNum (Finite neg ds n)) = false →
  payload (VNum (Finite neg ds n)).
Proof.
  intros Hc Hz. constructor; [done|]. by apply number_not_neg_zero.
Qed.

Lemma json_not_close v s :
  json_value v → mentions_neg_zero v = false →
  JSON.next_is 93 (text_of v ++ s) = None.
Proof.
  intros [| [] |neg ds n Hc|str|l Hl|kvs Hk Hv] Hz; try reflexivity.
  apply payload_not_close. by apply json_payload_number.
Qed.

Lemma json_nonempty v :
  json_value v → mentions_neg_zero v = false → (1 ≤ length (text_of v))%nat.
Proof.
  intros [| [] |neg ds n Hc|str|l Hl|kvs Hk Hv] Hz;
    try (unfold text_of; cbn; lia).
  apply payload_nonempty. by apply json_payload_number.
Qed.

Lemma members_tail_terminated ts rest :
  terminated (concat ((fun u => 44 :: u) <$> ts) ++ 125 :: rest).
Proof. by destruct ts. Qed.

Lemma obj_set_fresh k v (kvs : list (list N * value)) :
  k ∉ kvs.*1 → JSON.obj_set k v kvs = kvs ++ [(k, v)].
Proof.
  induction kvs as [|[k' v'] kvs IH]; [done|].
  rewrite fmap_cons. intros [Hne Hk]%not_elem_of_cons.
  cbn [JSON.obj_set app]. rewrite decide_False by (intros ->; by apply Hne).
  by rewrite IH.
Qed.

Lemma parse_members_round_trip pv rest kvs :
  ∀ acc g,
    (∀ kv, kv ∈ kvs → ∀ r, terminated r →
           pv (text_of kv.2 ++ r) = Some (kv.2, r)) →
    (length kvs < g)%nat →
    NoDup (acc ++ kvs).*1 →
    JSON.parse_members pv g acc
      (concat ((fun u => 44 :: u) <$> (member_text <$> kvs)) ++ 125 :: rest) =
    Some (acc ++ kvs, rest).
Proof.
  induction kvs as [|[k v] kvs IH]; intros acc g Hpv Hg Hnd.
  - destruct g as [|g]; [simpl in Hg; lia|].
    cbn [fmap list_fmap concat app]. by rewrite parse_members_end, app_nil_r.
  - destruct g as [|g]; [simpl in Hg; lia|].
    rewrite !fmap_cons. cbn [concat app]. rewrite <- app_assoc.
    rewrite parse_members_comma. unfold member_text at 1. cbn [fst snd].
    rewrite <- app_assoc. cbn [app].
    rewrite parse_member_quote.
    rewrite (Hpv (k, v));
      [|apply list_elem_of_here|apply members_tail_terminated].
    cbn [mbind option_bind].
    rewrite fmap_app, fmap_cons in Hnd. cbn [fst] in Hnd.
    rewrite obj_set_fresh.
    + rewrite IH; [by rewrite <- app_assoc| |simpl in Hg; lia|].
      * intros kv Hkv. apply Hpv. by apply list_elem_of_further.
      * by rewrite <- app_assoc, !fmap_app.
    + apply NoDup_app in Hnd as (_ & Hd & _). intros Hk.
      apply (Hd k Hk). apply list_elem_of_here.
Qed.

Lemma mentions_neg_zero_array l e :
  mentions_neg_zero (VArr l) = false → e ∈ l → mentions_neg_zero e = false.
Proof.
  cbn [mentions_neg_zero]. intros H He.
  destruct (mentions_neg_zero e) eqn:Hz; [|done].
  assert (existsb mentions_neg_zero l = true); [|congruence].
  apply existsb_exists. exists e. split; [|done]. by apply list_elem_of_In.
Qed.

Lemma mentions_neg_zero_object kvs kv :
  mentions_neg_zero (VObj kvs) = false → kv ∈ kvs →
  mentions_neg_zero kv.2 = false.
Proof.
  cbn [mentions_neg_zero]. intros H He.
  destruct (mentions_neg_zero kv.2) eqn:Hz; [|done].
  assert (existsb (fun kv => mentions_neg_zero kv.2) kvs = true);
    [|congruence].
  apply existsb_exists. exists kv. split; [|done]. by apply list_elem_of_In.
Qed.

Lemma parse_value_json_round_trip fuel :
  ∀ v rest,
    json_value v → mentions_neg_zero v = false →
    (length (text_of v) ≤ fuel)%nat → terminated rest →
    JSON.parse_value fuel (text_of v ++ rest) = Some (v, rest).
Proof.
  induction fuel as [|f IH]; intros v rest Hv Hz Hlen Hrest.
  { pose proof (json_nonempty v Hv Hz). lia. }
  destruct Hv as [| [] |neg ds n Hc|str|l Hl|kvs Hk Hkv]; try reflexivity.
  - apply parse_value_number; [done|by apply number_not_neg_zero|done].
  - apply parse_value_string.
  - rewrite text_of_array_json in * by done.
    cbn [app JSON.parse_value JSON.skip_ws].
    change (JSON.is_ws 91) with false. cbv iota.
    change (91 =? 123) with false. change (91 =? 91) with true. cbv iota.
    destruct l as [|e l]; [reflexivity|].
    rewrite fmap_cons, join_commas_cons in *. rewrite <- !app_assoc.
    cbn [length] in Hlen. rewrite !length_app in Hlen. cbn [length] in Hlen.
    pose proof (fun x => mentions_neg_zero_array _ x Hz) as Hzs.
    apply Forall_cons in Hl as [He Hl].
    change ([93] ++ rest) with (93 :: rest).
    rewrite json_not_close; [|done|apply Hzs, list_elem_of_here].
    rewrite IH;
      [|done|apply Hzs, list_elem_of_here|lia|apply tail_terminated].
    cbn [mbind option_bind].
    pose proof (tail_length_count (text_of <$> l)) as Hcount.
    rewrite length_fmap in Hcount.
    rewrite parse_elems_payload; [done| |lia].
    intros e' He' r Hr. apply IH; [| | |done].
    + by apply (proj1 (Forall_forall _ _) Hl).
    + apply Hzs. by apply list_elem_of_further.
    + pose proof (tail_length_elem (text_of e') (text_of <$> l)
                    (list_elem_of_fmap_2 _ _ _ He')). lia.
  - rewrite text_of_object in * by done. cbn [app].
    destruct kvs as [|[k v] kvs]; [reflexivity|].
    rewrite fmap_cons, join_commas_cons in *. rewrite <- !app_assoc.
    cbn [length] in Hlen. rewrite !length_app in Hlen.
    unfold member_text at 1 in Hlen. cbn [fst snd length] in Hlen.
    rewrite !length_app in Hlen. cbn [length] in Hlen.
    pose proof (fun x => mentions_neg_zero_object _ x Hz) as Hzs.
    apply Forall_cons in Hkv as [Hv Hkv]. cbn [snd] in Hv.
    change ([125] ++ rest) with (125 :: rest).
    unfold member_text at 1. cbn [fst snd]. rewrite <- app_assoc. cbn [app].
    rewrite parse_value_object, next_is_quote by done.
    rewrite parse_member_quote.
    rewrite IH; [|done|apply (Hzs (k, v)), list_elem_of_here|lia
                 |apply members_tail_terminated].
    cbn [mbind option_bind].
    pose proof (tail_length_count (member_text <$> kvs)) as Hcount.
    rewrite length_fmap in Hcount.
    rewrite (parse_members_round_trip _ rest kvs [(k, v)]); [done| |lia|done].
    intros kv Hin r Hr. apply IH; [| | |done].
    + by apply (proj1 (Forall_forall _ _) Hkv).
    + apply Hzs. by apply list_elem_of_further.
    + pose proof (tail_length_elem (member_text kv) (member_text <$> kvs)
                    (list_elem_of_fmap_2 _ _ _ Hin)) as Hm.
      unfold member_text at 1 in Hm. rewrite length_app in Hm.
      cbn [length] in Hm. lia.
Qed.

Lemma decode_envelope_of c p :
  p ≠ VUndefined →
  (∀ fuel rest, (length (text_of p) ≤ fuel)%nat → terminated rest →
     JSON.parse_value fuel (text_of p ++ rest) = Some (p, rest)) →
  decode (envelope (VStr c) p) = Normal (VStr c, p).
Proof.
  intros Hp Hrt.
  assert (envelope (VStr c) p =
          123 :: JSON.quote (lit "command") ++ 58 :: JSON.quote c ++
          44 :: JSON.quote (lit "data") ++ 58 :: text_of p ++ [125]) as Htext.
  { unfold envelope, JSON.stringify.
    cbn [JSON.ser omap list_omap fst snd fmap option_fmap option_map].
    rewrite (ser_defined p Hp).
    cbn [JSON.ser omap list_omap fst snd fmap option_fmap option_map
         JSON.join_commas default from_option Datatypes.id].
    by rewrite <- !app_assoc. }
  unfold decode, JSON.parse. rewrite Htext.
  set (n := length (123 :: JSON.quote (lit "command") ++ 58 ::
                 JSON.quote c ++ 44 :: JSON.quote (lit "data") ++ 58 ::
                 text_of p ++ [125])).
  assert (length (text_of p) + 3 ≤ n)%nat as HF.
  { subst n. cbn [length]. repeat (rewrite !length_app; cbn [length]). lia. }
  destruct n as [|[|[|F]]]; [lia..|].
  rewrite parse_value_object, next_is_quote by done.
  rewrite parse_member_quote.
  change (JSON.quote c) with (text_of (VStr c)).
  rewrite parse_value_string. cbn [mbind option_bind].
  rewrite parse_members_comma, parse_member_quote.
  rewrite Hrt; [|lia|apply brace_terminated]. cbn [mbind option_bind].
  rewrite parse_members_end. reflexivity.
Qed.

(** X19. The envelope round trip holds for every payload built from
    [null], booleans, finite numbers other than negative zero, strings,
    arrays, and objects with pairwise different keys: what [write] sends
    for such a [(command, payload)] is read back by the inbound path as
    the same pair. The payloads of [line], [dot] and [erase] are such
    objects. *)
Theorem json_envelope_round_trip command p :
  json_value p → mentions_neg_zero p = false →
  decode (envelope (VStr command) p) = Normal (VStr command, p).
Proof.
  intros Hp Hz. apply decode_envelope_of; [by apply json_defined|].
  intros fuel rest. by apply parse_value_json_round_trip.
Qed.

Lemma json_envelope_round_trip_witness :
  let p := VObj [(lit "from", VArr [VNum (Finite false [d1] 2);
                                    VNum (Finite false [d2; d5] 1)]);
                 (lit "color", VStr (lit "#00f"));
                 (lit "fill", VBool true);
                 (lit "tag", VNull)] in
  json_value p ∧ mentions_neg_zero p = false ∧
  decode (envelope (VStr (lit "line")) p) = Normal (VStr (lit "line"), p).
Proof.
  intros p.
  assert (json_value p) as Hp.
  { apply json_object.
    - repeat (apply NoDup_cons_2;
              [intros H; repeat (apply elem_of_cons in H as [H|H];
                                 [discriminate H|]);
               by apply elem_of_nil in H|]).
      apply NoDup_nil_2.
    - repeat apply Forall_cons_2; cbn [snd].
      + apply json_array. repeat apply Forall_cons_2;
          [apply json_number; split; discriminate..|apply Forall_nil_2].
      + apply json_string.
      + apply json_bool.
      + apply json_null.
      + apply Forall_nil_2. }
  assert (mentions_neg_zero p = false) as Hz by reflexivity.
  split_and!; [exact Hp|exact Hz|].
  exact (json_envelope_round_trip (lit "line") p Hp Hz).
Defined.

(** * The server's claims on [join], [broadcast] and [clear] *)

(** ** What the frames the server writes read as *)

Lemma decode_envelope_json c p :
  p = VUndefined ∨ (json_value p ∧ mentions_neg_zero p = false) →
  decode (envelope (VStr c) p) = Normal (VStr c, p).
Proof.
  intros [->|[Hp Hz]]; [apply decode_envelope_undefined|].
  apply decode_envelope_of; [by apply json_defined|].
  intros fuel rest. by apply parse_value_json_round_trip.
Qed.

Lemma stringify_envelope command data :
  JSON.stringify (VObj [(lit "command", command); (lit "data", data)]) =
  Some (envelope command data).
Proof. reflexivity. Qed.

Lemma deliveries_copies command data (l : list nat) :
  deliveries command data l = copies (envelope command data) l.
Proof. reflexivity. Qed.



Lemma inbox_broadcast command data exclude w s :
  Some s ≠ exclude → s ∉ not_open w →
  inbox s (deliveries command data
             (live (not_open w) (destinations exclude (sockets w)))) =
  replicate (length (filter (fun t => t = s) (sockets w)))
            (TextFrame (envelope command data)).
Proof.
  intros Hne Hopen.
  by rewrite inbox_deliveries, count_live, count_destinations.
Qed.

(** ** The claim on [join] *)




(** ** The claim on failing writes *)

(** C4. A write to a session whose connection is not open fails by
    dropping the frame, and [broadcast] goes on: it returns normally, and
    what it has sent is the text [JSON.stringify] writes for the envelope,
    to every destination whose connection is open, in registry order. So
    a registered session with an open connection, other than the excluded
    one, is sent the command, once per entry it has in the registry,
    whatever the state of the other connections. *)
Theorem C4_broadcast_reaches_every_open_session command data exclude w s :
  s ∈ sockets w → Some s ≠ exclude → s ∉ not_open w →
  let after := broadcast command data exclude w in
  after.1 = Normal tt ∧
  ∃ t,
    JSON.stringify (VObj [(lit "command", command); (lit "data", data)]) =
      Some t ∧
    sent after.2 =
      sent w ++ copies t (live (not_open w)
                               (destinations exclude (sockets w))) ∧
    inbox s (sent after.2) =
      inbox s (sent w) ++
      replicate (length (filter (fun x => x = s) (sockets w))) (TextFrame t) ∧
    (s, TextFrame t) ∈ sent after.2.
Proof.
  intros Hin Hne Hopen after. subst after. rewrite broadcast_spec.
  cbn [fst snd sent set_sent]. split; [done|].
  exists (envelope command data).
  split_and!; [apply stringify_envelope|done| |].
  - by rewrite inbox_app, inbox_broadcast.
  - apply elem_of_app. right. unfold deliveries.
    apply (list_elem_of_fmap_2
             (fun t => (t, TextFrame (envelope command data)))).
    unfold live, destinations. by rewrite !list_elem_of_filter.
Qed.

Lemma C4_broadcast_reaches_every_open_session_witness :
  let w := MkWorld [1; 2; 3]%nat canvas0 {[2%nat]} [] [] [] 0 in
  let after := broadcast (VStr (lit "clear")) VUndefined None w in
  3%nat ∈ sockets w ∧ Some 3%nat ≠ None ∧ (3%nat ∉ not_open w) ∧
  (2%nat ∈ not_open w) ∧
  after.1 = Normal tt ∧
  (∃ t, sent after.2 = [(1%nat, TextFrame t); (3%nat, TextFrame t)] ∧
        inbox 3%nat (sent after.2) = [TextFrame t] ∧
        decode t = Normal (VStr (lit "clear"), VUndefined)).
Proof.
  intros w after.
  assert (3%nat ∈ sockets w) as H1
    by (do 2 apply list_elem_of_further; apply list_elem_of_here).
  assert (Some 3%nat ≠ None) as H2 by discriminate.
  assert (3%nat ∉ not_open w) as H3
    by (subst w; cbn [not_open]; by intros ?%elem_of_singleton).
  assert (2%nat ∈ not_open w) as H4
    by (subst w; cbn [not_open]; by apply elem_of_singleton_2).
  destruct (C4_broadcast_reaches_every_open_session
              (VStr (lit "clear")) VUndefined None w 3%nat H1 H2 H3)
    as (Hr & t & Ht & Hsent & Hin & _).
  split_and!; [exact H1|exact H2|exact H3|exact H4|exact Hr|].
  exists t. split_and!; [exact Hsent|exact Hin|].
  rewrite stringify_envelope in Ht. injection Ht as <-.
  apply decode_envelope_undefined.
Defined.

(** ** The claim on [clear] *)

(** C5. [handleData] on [clear] returns normally. It writes nothing to
    [boards] itself and leaves exactly one more callback waiting, which
    holds the canvas as it was before the reset; the canvas is then filled
    white; and one and the same text frame goes to every registered
    session whose connection is open: the text [JSON.stringify] writes
    for the [clear] envelope with the payload as received, which, for a
    payload that is absent or a JSON value, reads as [clear] with that
    payload. The
    first callback saves nothing and leaves the second waiting; the second
    makes one write to [boards], of the canvas captured before the reset. *)
Theorem C5_clear_saves_before_reset w _data socket :
  let snapshot := canvas w in
  let cleared := handleData (VStr (lit "clear")) _data socket w in
  cleared.1 = Normal tt ∧
  boards cleared.2 = boards w ∧
  pending cleared.2 = pending w ++ [BlobCreated snapshot SaveIt] ∧
  canvas cleared.2 = Canvas_draw (fill (lit "white")) snapshot ∧
  sockets cleared.2 = sockets w ∧
  (∃ relayed,
     sent cleared.2 =
       sent w ++ copies relayed (live (not_open w) (sockets w)) ∧
     JSON.stringify
       (VObj [(lit "command", VStr (lit "clear")); (lit "data", _data)]) =
       Some relayed ∧
     (_data = VUndefined ∨
      (json_value _data ∧ mentions_neg_zero _data = false) →
      decode relayed = Normal (VStr (lit "clear"), _data))) ∧
  (∀ w1, let r := run_task (BlobCreated snapshot SaveIt) w1 in
     r.1 = Normal tt ∧ boards r.2 = boards w1 ∧ sent r.2 = sent w1 ∧
     canvas r.2 = canvas w1 ∧
     pending r.2 = pending w1 ++ [ReaderLoaded snapshot SaveIt]) ∧
  (∀ w2, let r := run_task (ReaderLoaded snapshot SaveIt) w2 in
     r.1 = Normal tt ∧
     boards r.2 = boards w2 ++ [(now w2, snapshot)] ∧
     sent r.2 = sent w2 ∧ canvas r.2 = canvas w2 ∧
     pending r.2 = pending w2).
Proof.
  intros snapshot cleared. subst cleared.
  rewrite handleData_clear, broadcast_spec.
  cbn [fst snd not_open sockets sent boards pending canvas
       set_sent set_canvas set_pending].
  rewrite destinations_None, deliveries_copies.
  split_and!; try done.
  eexists. split_and!; [reflexivity|apply stringify_envelope|].
  apply decode_envelope_json.
Qed.

Lemma C5_clear_saves_before_reset_witness :
  let w := MkWorld [1; 2]%nat canvas0 ∅ [] [] [] 5 in
  let cleared := handleData (VStr (lit "clear")) VUndefined 1%nat w in
  (VUndefined = VUndefined ∨
   (json_value VUndefined ∧ mentions_neg_zero VUndefined = false)) ∧
  boards cleared.2 = [] ∧
  pending cleared.2 = [BlobCreated canvas0 SaveIt] ∧
  (∃ relayed,
     sent cleared.2 = [(1%nat, TextFrame relayed); (2%nat, TextFrame relayed)] ∧
     decode relayed = Normal (VStr (lit "clear"), VUndefined)) ∧
  boards (run_task (ReaderLoaded canvas0 SaveIt) cleared.2).2 =
    [(5, canvas0)].
Proof.
  intros w cleared.
  assert (VUndefined = VUndefined ∨
          (json_value VUndefined ∧ mentions_neg_zero VUndefined = false))
    as H by by left.
  destruct (C5_clear_saves_before_reset w VUndefined 1%nat)
    as (_ & Hboards & Hpending & _ & _ & (relayed & Hsent & _ & Hdec) & _
        & Hsave).
  split_and!; [exact H|exact Hboards|exact Hpending| |].
  - exists relayed. split; [exact Hsent|exact (Hdec H)].
  - exact (proj1 (proj2 (Hsave cleared.2))).
Defined.

(** ** The claim on duplicate registration *)

(** C10. [join] appends the sender to the registry whether or not it is
    there already, and a broadcast sends a session one frame per entry it
    has in the registry: after a session registered [n] times joins once
    more, a broadcast that reaches it (its connection is open and it is
    not the excluded session) adds [n + 1] copies of the envelope's text
    to what it has been sent; two for a duplicate [join]. *)
Theorem C10_duplicate_join_doubles_delivery w _data socket
  command data exclude :
  socket ∉ not_open w →
  Some socket ≠ exclude →
  let joined := handleData (VStr (lit "join")) _data socket w in
  let after := broadcast command data exclude joined.2 in
  joined.1 = Normal tt ∧
  sockets joined.2 = sockets w ++ [socket] ∧
  after.1 = Normal tt ∧
  sockets after.2 = sockets w ++ [socket] ∧
  ∃ t new,
    JSON.stringify (VObj [(lit "command", command); (lit "data", data)]) =
      Some t ∧
    sent after.2 = sent joined.2 ++ new ∧
    inbox socket new =
      replicate (S (length (filter (fun x => x = socket) (sockets w))))
                (TextFrame t).
Proof.
  intros Hopen Hne joined after. subst after joined.
  rewrite handleData_join_spec. cbn [fst snd].
  rewrite broadcast_spec. cbn [fst snd sockets sent not_open set_sent].
  split_and!; try done.
  eexists _, _. split_and!; [apply stringify_envelope|reflexivity|].
  rewrite inbox_deliveries, count_live, count_destinations by done.
  rewrite filter_app, length_app, filter_cons_True by done.
  cbn [filter list_filter length]. f_equal. lia.
Qed.

Lemma C10_duplicate_join_doubles_delivery_witness :
  let w := MkWorld [7%nat] canvas0 ∅ [] [] [] 0 in
  let joined := handleData (VStr (lit "join")) VUndefined 7%nat w in
  let after := broadcast (VStr (lit "clear")) VUndefined None joined.2 in
  (7%nat ∉ not_open w) ∧ Some 7%nat ≠ None ∧
  sockets joined.2 = [7%nat; 7%nat] ∧
  ∃ t new,
    sent after.2 = sent joined.2 ++ new ∧
    inbox 7%nat new = [TextFrame t; TextFrame t] ∧
    decode t = Normal (VStr (lit "clear"), VUndefined).
Proof.
  intros w joined after.
  assert (7%nat ∉ not_open w) as Ho by apply not_elem_of_empty.
  assert (Some 7%nat ≠ None) as Hne by discriminate.
  destruct (C10_duplicate_join_doubles_delivery w VUndefined 7%nat
              (VStr (lit "clear")) VUndefined None Ho Hne)
    as (_ & Hs & _ & _ & t & new & Ht & Hsent & Hin).
  split_and!; [exact Ho|exact Hne|exact Hs|].
  exists t, new. split_and!; [exact Hsent|exact Hin|].
  rewrite stringify_envelope in Ht. injection Ht as <-.
  apply decode_envelope_undefined.
Defined.

(** ** [join] and its snapshot, whatever the joiner's connection *)

(** X13. [join] registers the sender and captures the canvas whatever the
    state of the sender's connection: the session is appended to the
    registry, one callback holding the canvas is left waiting, nothing is
    saved yet; the reply, the text [JSON.stringify] writes for the [join]
    envelope with the canvas size, is sent to the joiner when its
    connection is open and to nobody otherwise. *)
Theorem join_registers_whatever_the_connection _data socket w :
  let joined := handleData (VStr (lit "join")) _data socket w in
  joined.1 = Normal tt ∧
  sockets joined.2 = sockets w ++ [socket] ∧
  pending joined.2 =
    pending w ++ [BlobCreated (canvas w) (SendAndSave socket)] ∧
  boards joined.2 = boards w ∧ canvas joined.2 = canvas w ∧
  ∃ reply,
    JSON.stringify
      (VObj [(lit "command", VStr (lit "join"));
             (lit "data", VObj [(lit "size", size_toArray (canvas w))])]) =
      Some reply ∧
    sent joined.2 =
      sent w ++ if decide (socket ∈ not_open w) then []
                else [(socket, TextFrame reply)].
Proof.
  intros joined. subst joined. rewrite handleData_join_spec.
  cbn [fst snd sockets sent pending boards canvas].
  split_and!; try done.
  eexists. split; [apply stringify_envelope|done].
Qed.

(** X14. The callback that runs when the snapshot of a [join] has been
    read saves the snapshot whatever the state of the joiner's
    connection: [saveCanvas] runs after [writeArrayBuffer] whether or not
    the frame went out. The binary frame is sent to the joiner when its
    connection is open and to nobody otherwise. *)
Theorem snapshot_saved_whatever_the_connection result socket w :
  let r := run_task (ReaderLoaded result (SendAndSave socket)) w in
  r.1 = Normal tt ∧
  boards r.2 = boards w ++ [(now w, result)] ∧
  sent r.2 =
    sent w ++ (if decide (socket ∈ not_open w) then []
               else [(socket, BinaryFrame result)]) ∧
  pending r.2 = pending w ∧ sockets r.2 = sockets w ∧ canvas r.2 = canvas w.
Proof.
  intros r. subst r. cbn [run_task].
  unfold bind, writeArrayBuffer, ws_send.
  destruct (decide (socket ∈ not_open w)); cbn; [|done].
  by rewrite app_nil_r.
Qed.

(** ** Drawing commands on well-formed payloads *)

(** X18. A [line], [dot] or [erase] whose payload is a JSON object with
    the members the command needs ([from] and [to], or [pos], as points,
    a size, a colour) is drawn on the server's canvas with those members
    and relayed: [handleData] returns normally, the canvas has the one
    drawing call more, and one and the same text frame, which reads as
    the command with the payload as received, goes to every registered
    session whose connection is open. [erase] draws its line in white. *)
Theorem drawing_drawn_and_relayed kvs socket w :
  json_value (VObj kvs) → mentions_neg_zero (VObj kvs) = false →
  let get k := obj_get kvs (lit k) in
  let relayed c (r : completion unit * world) :=
    r.1 = Normal tt ∧ sockets r.2 = sockets w ∧
    ∃ t, sent r.2 = sent w ++ copies t (live (not_open w) (sockets w)) ∧
         decode t = Normal (VStr (lit c), VObj kvs) in
  (point (get "from") → point (get "to") →
   colour (get "color") → width (get "size") →
   let r := handleData (VStr (lit "line")) (VObj kvs) socket w in
   relayed "line" r ∧
   canvas r.2 =
     Canvas_draw (drawLine (get "from") (get "to") (get "color") (get "size"))
                 (canvas w)) ∧
  (point (get "pos") → width (get "size") → colour (get "color") →
   let r := handleData (VStr (lit "dot")) (VObj kvs) socket w in
   relayed "dot" r ∧
   canvas r.2 =
     Canvas_draw (fillCircleInSquare (get "pos") (get "size") (get "color"))
                 (canvas w)) ∧
  (point (get "from") → point (get "to") → width (get "size") →
   let r := handleData (VStr (lit "erase")) (VObj kvs) socket w in
   relayed "erase" r ∧
   canvas r.2 =
     Canvas_draw (drawLine (get "from") (get "to") (VStr (lit "white"))
                           (get "size")) (canvas w)).
Proof.
  intros Hjson Hzero get relayed.
  assert (∀ c, decode (envelope (VStr (lit c)) (VObj kvs)) =
               Normal (VStr (lit c), VObj kvs)) as Hdec.
  { intros c. apply decode_envelope_json. by right. }
  split_and!; intros;
    repeat match goal with x := _ |- _ => subst x end;
    [rewrite handleData_line|rewrite handleData_dot|rewrite handleData_erase];
    rewrite broadcast_spec;
    cbn [fst snd canvas sent sockets not_open set_sent set_canvas];
    rewrite destinations_None, deliveries_copies;
    (split_and!; [done|done| |done]);
    eexists; (split; [reflexivity|apply Hdec]).
Qed.

Lemma drawing_drawn_and_relayed_witness :
  let kvs := [(lit "from", VArr [VNum (num_of_Z 10); VNum (num_of_Z 20)]);
              (lit "to", VArr [VNum (num_of_Z 30); VNum (num_of_Z 40)]);
              (lit "color", VStr (lit "#00f"));
              (lit "size", VNum (num_of_Z 5))] in
  let w := MkWorld [1; 2]%nat canvas0 {[2%nat]} [] [] [] 0 in
  let r := handleData (VStr (lit "line")) (VObj kvs) 1%nat w in
  json_value (VObj kvs) ∧ mentions_neg_zero (VObj kvs) = false ∧
  point (obj_get kvs (lit "from")) ∧ point (obj_get kvs (lit "to")) ∧
  colour (obj_get kvs (lit "color")) ∧ width (obj_get kvs (lit "size")) ∧
  (∃ t, sent r.2 = [(1%nat, TextFrame t)] ∧
        decode t = Normal (VStr (lit "line"), VObj kvs)) ∧
  calls (canvas r.2) =
    calls canvas0 ++
    [drawLine (VArr [VNum (num_of_Z 10); VNum (num_of_Z 20)])
              (VArr [VNum (num_of_Z 30); VNum (num_of_Z 40)])
              (VStr (lit "#00f")) (VNum (num_of_Z 5))].
Proof.
  intros kvs w r.
  assert (json_value (VObj kvs)) as Hj.
  { apply json_object.
    - repeat (apply NoDup_cons_2;
              [intros H; repeat (apply elem_of_cons in H as [H|H];
                                 [discriminate H|]);
               by apply elem_of_nil in H|]).
      apply NoDup_nil_2.
    - repeat apply Forall_cons_2; cbn [snd]; try apply Forall_nil_2;
        try apply json_string;
        try (apply json_number; split; discriminate);
        apply json_array; repeat apply Forall_cons_2;
        try apply Forall_nil_2; apply json_number; split; discriminate. }
  assert (mentions_neg_zero (VObj kvs) = false) as Hz by reflexivity.
  assert (point (obj_get kvs (lit "from"))) as H1 by (by eexists _, _).
  assert (point (obj_get kvs (lit "to"))) as H2 by (by eexists _, _).
  assert (colour (obj_get kvs (lit "color"))) as H3 by (by eexists).
  assert (width (obj_get kvs (lit "size"))) as H4 by (by eexists).
  destruct (proj1 (drawing_drawn_and_relayed kvs 1%nat w Hj Hz) H1 H2 H3 H4)
    as ((_ & _ & Hsent) & Hcanvas).
  split_and!; [exact Hj|exact Hz|exact H1|exact H2|exact H3|exact H4
              |exact Hsent|].
  fold r in Hcanvas. by rewrite Hcanvas.
Defined.
